(** * Lume: a shallow embedding of the rendering core and of some plugins

    The development follows the TypeScript sources module by module:
    - [Js]            the JavaScript operations the sources rely on
    - [LightningCss]  plugins/lightningcss.ts   ([version], the CSS processors)
    - [Liquid]        plugins/liquid.ts         (LiquidEngine and its template cache)
    - [Pug]           plugins/pug.ts            (PugEngine and its template cache)
    - [Jsx]           plugins/jsx.ts            (JsxEngine)
    - [Engines]       the template caches of the three engines, side by side
    - [Attributes]    plugins/attributes.ts     (the attr and class helpers)
    - [Cms]           cli/cms.ts                (the listener of beforeUpdate)
    - [Renderer]      core/renderer.ts          (the dispatch to the engines)
    - [DateUtil]      core/utils/date.ts        (parseDate)
    The last two files are known from the specification and from their
    tests only, and are modelled from these.

    JavaScript numbers that the code uses as integers are modelled as [Z],
    with the 32-bit wrap-around of the bit operators written out; strings are
    strings of bytes; a [Map] or [Set] whose order shows is a list, one whose
    order does not show is a [gmap] or [gset]; a function that can throw
    returns a [result]. *)

From Stdlib Require Import ZArith Lia Ascii String.
From stdpp Require Import gmap strings list pretty.

(** ** JavaScript: integers, exceptions, values, strings *)
Module Js.
Local Open Scope Z_scope.

(** [ToInt32]: the value modulo 2^32, read as a signed 32-bit integer. *)
Definition toInt32 (z : Z) : Z := (z + 2^31) mod 2^32 - 2^31.

(** [a << n]: both operands go through the 32-bit conversions, the shift
    count is taken modulo 32, and the result is again a signed 32-bit integer. *)
Definition shl (a n : Z) : Z := toInt32 (Z.shiftl (toInt32 a) (n mod 32)).

(** [a | b] on signed 32-bit integers. *)
Definition bor (a b : Z) : Z := toInt32 (Z.lor (toInt32 a) (toInt32 b)).

Lemma toInt32_small z : - 2^31 <= z < 2^31 -> toInt32 z = z.
Proof.
  intros Hz. unfold toInt32.
  rewrite Z.mod_small by lia. lia.
Qed.

(** A disjunction of a multiple of [2^k] and a number below [2^k] is their sum. *)
Lemma lor_shifted_add a b k :
  0 <= k -> 0 <= b < 2^k -> Z.lor (a * 2^k) b = a * 2^k + b.
Proof.
  intros Hk Hb.
  assert (Hland : Z.land (a * 2^k) b = 0).
  { apply Z.bits_inj'. intros n Hn.
    rewrite Z.land_spec, Z.bits_0.
    destruct (Z.lt_ge_cases n k) as [Hlt | Hge].
    - rewrite Z.mul_pow2_bits_low by lia. reflexivity.
    - destruct (Z.eq_dec b 0) as [-> | Hb0].
      + rewrite Z.bits_0. apply andb_false_r.
      + assert (Hlog : Z.log2 b < n) by (apply Z.lt_le_trans with k; [apply Z.log2_lt_pow2; lia | lia]).
        rewrite (Z.bits_above_log2 b n) by lia. apply andb_false_r. }
  rewrite <- Z.lxor_lor by exact Hland.
  symmetry. apply Z.add_nocarry_lxor. exact Hland.
Qed.

(** *** Exceptions and mutable objects

    A call that can throw returns a [result]; a method of an object with
    mutable fields is a function from the object's state to a result and the
    state it leaves, also when it throws. *)
Inductive result (A : Type) : Type :=
  | Ok (a : A)
  | Throw (message : string).
Arguments Ok {A} a.
Arguments Throw {A} message.

#[export] Instance result_ret : MRet result := fun A a => Ok a.
#[export] Instance result_bind : MBind result := fun A B f r =>
  match r with
  | Ok a => f a
  | Throw e => Throw e
  end.
#[export] Instance result_fmap : FMap result := fun A B f r =>
  match r with
  | Ok a => Ok (f a)
  | Throw e => Throw e
  end.

Definition method (S A : Type) : Type := S -> result A * S.

#[export] Instance method_ret S : MRet (method S) := fun A a s => (Ok a, s).
#[export] Instance method_bind S : MBind (method S) := fun A B f m s =>
  match m s with
  | (Ok a, s') => f a s'
  | (Throw e, s') => (Throw e, s')
  end.

(** Reading a field, updating fields, and calling a function that can throw. *)
Definition reads {S A : Type} (f : S -> A) : method S A := fun s => (Ok (f s), s).
Definition update {S : Type} (f : S -> S) : method S unit := fun s => (Ok tt, f s).
Definition call {S A : Type} (r : result A) : method S A := fun s => (r, s).

(** *** Values

    The values that reach the helpers and the render data: numbers are the
    integers, an object is the list of its own entries in the order of
    [Object.entries]. *)
#[warnings="-register-all"]
Inductive value : Type :=
  | VUndefined
  | VNull
  | VBool (b : bool)
  | VNum (n : Z)
  | VStr (s : string)
  | VArr (items : list value)
  | VObj (entries : list (string * value)).

(** The condition [if (v)]: [undefined], [null], [false], [0] and the empty
    string are falsy. *)
Definition truthy (v : value) : bool :=
  match v with
  | VUndefined | VNull => false
  | VBool b => b
  | VNum n => negb (n =? 0)%Z
  | VStr s => negb (bool_decide (s = ""))
  | VArr _ | VObj _ => true
  end.

(** [array.join(sep)] on strings. *)
Fixpoint join (sep : string) (parts : list string) : string :=
  match parts with
  | [] => ""
  | [p] => p
  | p :: rest => p +:+ sep +:+ join sep rest
  end.

(** [s.split(sep)] for a separator of one character: the pieces between the
    separators, the empty ones too. *)
Fixpoint split_go (sep : ascii) (piece : string) (s : string) : list string :=
  match s with
  | EmptyString => [String.rev piece]
  | String c rest =>
      if Ascii.eqb c sep then String.rev piece :: split_go sep EmptyString rest
      else split_go sep (String c piece) rest
  end.
Definition split (sep : ascii) (s : string) : list string := split_go sep EmptyString s.

(** [s.trim()], for the white space of ASCII. *)
Fixpoint trimStart (s : string) : string :=
  match s with
  | EmptyString => EmptyString
  | String c rest => if Ascii.is_space c then trimStart rest else s
  end.
Definition trim (s : string) : string :=
  String.rev (trimStart (String.rev (trimStart s))).

(** [s.toUpperCase()], for the letters of ASCII: every other character,
    the letters beyond ASCII too, is kept as it is. *)
Definition upper_char (c : ascii) : ascii :=
  let n := nat_of_ascii c in
  if (97 <=? n)%nat && (n <=? 122)%nat then ascii_of_nat (n - 32) else c.
Fixpoint toUpperCase (s : string) : string :=
  match s with
  | EmptyString => EmptyString
  | String c rest => String (upper_char c) (toUpperCase rest)
  end.

(** The conversion to a string that [+] applies to its right operand when
    the left one is a string. A number is written in decimal digits, as
    JavaScript writes the integers below 10^21 in absolute value. *)
Fixpoint to_string (v : value) : string :=
  match v with
  | VUndefined => "undefined"
  | VNull => "null"
  | VBool true => "true"
  | VBool false => "false"
  | VNum n => pretty n
  | VStr s => s
  | VArr items =>
      join ","
        (map (fun item => match item with
                          | VUndefined | VNull => EmptyString
                          | _ => to_string item
                          end) items)
  | VObj _ => "[object Object]"
  end.

(** A loop over a list whose body can throw. *)
Fixpoint for_each {A B : Type} (body : A -> B -> result A) (items : list B) (acc : A)
    : result A :=
  match items with
  | [] => Ok acc
  | x :: rest =>
      match body acc x with
      | Ok acc' => for_each body rest acc'
      | Throw e => Throw e
      end
  end.

(** Induction over values, the items of an array and the values of an
    object being values themselves. *)
Section ValueInduction.
Variable P : value -> Prop.
Hypothesis Hundefined : P VUndefined.
Hypothesis Hnull : P VNull.
Hypothesis Hbool : forall b, P (VBool b).
Hypothesis Hnum : forall n, P (VNum n).
Hypothesis Hstr : forall s, P (VStr s).
Hypothesis Harr : forall items, Forall P items -> P (VArr items).
Hypothesis Hobj : forall entries, Forall (fun entry => P entry.2) entries -> P (VObj entries).

Fixpoint value_nested_ind (v : value) : P v :=
  match v with
  | VUndefined => Hundefined
  | VNull => Hnull
  | VBool b => Hbool b
  | VNum n => Hnum n
  | VStr s => Hstr s
  | VArr items =>
      Harr items
        ((fix all (l : list value) : Forall P l :=
            match l with
            | [] => List.Forall_nil P
            | x :: rest => @List.Forall_cons _ P x rest (value_nested_ind x) (all rest)
            end) items)
  | VObj entries =>
      Hobj entries
        ((fix all (l : list (string * value)) : Forall (fun entry => P entry.2) l :=
            match l with
            | [] => List.Forall_nil _
            | x :: rest => @List.Forall_cons _ _ x rest (value_nested_ind x.2) (all rest)
            end) entries)
  end.
End ValueInduction.

(** An optional string argument as a condition: [if (!filename)] takes its
    branch when the argument is left out and when it is the empty string;
    [given] returns the string in the other case. *)
Definition given (s : option string) : option string :=
  match s with
  | None => None
  | Some s => if bool_decide (s = "") then None else Some s
  end.

End Js.

(** ** plugins/lightningcss.ts *)
Module LightningCss.
Local Open Scope Z_scope.

(** [export function version(major, minor = 0, patch = 0)]: an argument left
    out ([None]) takes its default [0];
    the body is [(major << 16) | (minor << 8) | patch]. *)
Definition version (major : Z) (minor patch : option Z) : Z :=
  let minor := default 0 minor in
  let patch := default 0 patch in
  Js.bor (Js.bor (Js.shl major 16) (Js.shl minor 8)) patch.

(** The browser targets of [defaults.options.targets]. *)
Definition default_targets : list (string * Z) :=
  [ ("android", version 98 None None); ("chrome", version 98 None None);
    ("edge", version 98 None None); ("firefox", version 97 None None);
    ("ios_saf", version 15 None None); ("safari", version 15 None None);
    ("opera", version 83 None None); ("samsung", version 16 None None) ]%string.

(** *** The processors

    The calls that a processor makes to the rest of the site and to the
    lightningcss library, each with the type of what it answers. A
    processor is a program over these calls; the library calls can throw. *)
Section Processors.
Context {Page SourceMap Options : Type}.
Import Js.

(** What [prepareAsset(site, file)] of plugins/source_maps.ts returns. *)
Record Asset : Type := {
  content : string;
  filename : string;
  sourceMap : option SourceMap;
  enableSourceMap : bool;
}.

(** The code and the source map of a result, decoded. *)
Record Output : Type := {
  code : string;
  map : string;
}.

(** [transformOptions] and [bundleOptions]: the fields the plugin sets, and
    [...options.options]. For the bundle, [read_own] is what the resolver's
    [read] answers for the file itself and [includes] is where its
    [resolve] looks. *)
Record TransformOptions : Type := {
  transform_filename : string;
  transform_code : string;
  transform_sourceMap : bool;
  transform_inputSourceMap : string;
  transform_options : Options;
}.

Record BundleOptions : Type := {
  bundle_filename : string;
  bundle_sourceMap : bool;
  bundle_inputSourceMap : string;
  bundle_options : Options;
  bundle_includes : string;
  bundle_read_own : string;
}.

Inductive call : Type -> Type :=
  | PrepareAsset (file : Page) : call Asset
  | Transform (opts : TransformOptions) : call (result Output)
  | BundleAsync (opts : BundleOptions) : call (result Output)
  | SaveAsset (file : Page) (code : string) (map : option string) : call unit.

(** A program: it returns, or makes a call and goes on with the answer. An
    awaited call is a call like the others: the function is suspended until
    the answer is there. *)
Inductive prog (R : Type) : Type :=
  | Ret (r : R)
  | Vis {X : Type} (c : call X) (k : X -> prog R).
Arguments Ret {R} r.
Arguments Vis {R X} c k.

Fixpoint bind {R S : Type} (p : prog R) (k : R -> prog S) : prog S :=
  match p with
  | Ret r => k r
  | Vis c h => Vis c (fun x => bind (h x) k)
  end.

Definition perform {X : Type} (c : call X) : prog X := Vis c Ret.

(** [for (const file of files) { ... }] and [files.forEach(...)]: the body
    runs for each element in turn; an exception ends the loop. *)
Fixpoint for_of (files : list Page) (body : Page -> prog (result unit))
    : prog (result unit) :=
  match files with
  | [] => Ret (Ok tt)
  | file :: rest =>
      bind (body file) (fun r =>
        match r with
        | Ok _ => for_of rest body
        | Throw e => Ret (Throw e)
        end)
  end.

(** [JSON.stringify(sourceMap)] *)
Variable stringify : option SourceMap -> string.
(** [options.options] and [options.includes] *)
Variable options : Options.
Variable includes : string.

(** [function lightningCSSTransformer(file)] *)
Definition lightningCSSTransformer (file : Page) : prog (result unit) :=
  bind (perform (PrepareAsset file)) (fun asset =>
  let transformOptions :=
    {| transform_filename := filename asset;
       transform_code := content asset;
       transform_sourceMap := enableSourceMap asset;
       transform_inputSourceMap := stringify (sourceMap asset);
       transform_options := options |} in
  bind (perform (Transform transformOptions)) (fun r =>
  match r with
  | Throw e => Ret (Throw e)
  | Ok result =>
      bind (perform (SaveAsset file (code result)
                       (if enableSourceMap asset then Some (map result) else None)))
        (fun _ => Ret (Ok tt))
  end)).

(** The processor of the plugin without includes:
    [(pages) => pages.forEach(lightningCSSTransformer)]. *)
Definition transformer (pages : list Page) : prog (result unit) :=
  for_of pages lightningCSSTransformer.

(** The body of the loop of [lightningCSSBundler]. *)
Definition bundle_file (file : Page) : prog (result unit) :=
  bind (perform (PrepareAsset file)) (fun asset =>
  let bundleOptions :=
    {| bundle_filename := filename asset;
       bundle_sourceMap := enableSourceMap asset;
       bundle_inputSourceMap := stringify (sourceMap asset);
       bundle_options := options;
       bundle_includes := includes;
       bundle_read_own := content asset |} in
  bind (perform (BundleAsync bundleOptions)) (fun r =>
  match r with
  | Throw e => Ret (Throw e)
  | Ok result =>
      bind (perform (SaveAsset file (code result)
                       (if enableSourceMap asset then Some (map result) else None)))
        (fun _ => Ret (Ok tt))
  end)).

(** [async function lightningCSSBundler(files)] *)
Definition lightningCSSBundler (files : list Page) : prog (result unit) :=
  for_of files bundle_file.

(** The processor that [lightningCSS] registers with [site.process]: the
    bundler [if (options.includes)], the transformer of each page else. *)
Definition processor (files : list Page) : prog (result unit) :=
  if bool_decide (includes = EmptyString) then transformer files
  else lightningCSSBundler files.

(** **** Runs

    A call made, with its arguments. The rest of the system answers a call
    knowing the calls made so far. A run of a program is the calls it makes,
    in order, and what it returns. *)
Definition event : Type := { X : Type & call X }.

Definition answers : Type := forall X : Type, list event -> call X -> X.

Fixpoint run {R : Type} (env : answers) (p : prog R) (history : list event)
    : list event * R :=
  match p with
  | Ret r => (history, r)
  | Vis c k => run env (k (env _ history c)) (history ++ [existT _ c])
  end.

(** What a call does, and to which page. *)
Inductive label : Type :=
  | Prepares (file : Page)
  | Transforms
  | Bundles
  | Saves (file : Page).

Definition label_of (e : event) : label :=
  match projT2 e with
  | PrepareAsset file => Prepares file
  | Transform _ => Transforms
  | BundleAsync _ => Bundles
  | SaveAsset file _ _ => Saves file
  end.

(** The calls of a processor that handles its pages strictly one after the
    other, each page to its end: prepared, compiled (transformed or
    bundled), saved. *)
Definition one_by_one (compiles : label) (pages : list Page) : list label :=
  pages ≫= (fun file => [Prepares file; compiles; Saves file]).

End Processors.

Example version_chrome_98 : version 98 None None = 6422528.
Proof. reflexivity. Qed.

Example version_1_2_3 : version 1 (Some 2) (Some 3) = 66051.
Proof. reflexivity. Qed.

(** Outside the byte range the 32-bit wrap-around shows. *)
Example version_wraps : version 32768 None None = -2147483648.
Proof. reflexivity. Qed.

(** An argument left out behaves as its default written out. *)
Lemma version_defaults major : version major None None = version major (Some 0) (Some 0).
Proof. unfold version. reflexivity. Qed.

(** C10: on byte-sized components [version] is the 24-bit packing
    [major * 65536 + minor * 256 + patch], and with [minor] and [patch] left
    to their defaults it is [major * 65536]. *)
Theorem version_packs_24_bits (major minor patch : Z) :
  0 <= major < 256 -> 0 <= minor < 256 -> 0 <= patch < 256 ->
  version major (Some minor) (Some patch) = major * 65536 + minor * 256 + patch
  /\ version major None None = major * 65536.
Proof.
  intros Hmaj Hmin Hpat.
  assert (Hpack : forall mi pa, 0 <= mi < 256 -> 0 <= pa < 256 ->
            version major (Some mi) (Some pa) = major * 65536 + mi * 256 + pa).
  { intros mi pa Hmi Hpa. unfold version, Js.bor, Js.shl. simpl default.
    change (16 mod 32) with 16. change (8 mod 32) with 8.
    rewrite !(Js.toInt32_small major), !(Js.toInt32_small mi),
      !(Js.toInt32_small pa) by lia.
    rewrite !Z.shiftl_mul_pow2 by lia.
    rewrite !(Js.toInt32_small (major * 2 ^ 16)), !(Js.toInt32_small (mi * 2 ^ 8)) by lia.
    rewrite (Js.lor_shifted_add major (mi * 2 ^ 8) 16) by lia.
    rewrite !(Js.toInt32_small (major * 2 ^ 16 + mi * 2 ^ 8)) by lia.
    replace (major * 2 ^ 16 + mi * 2 ^ 8) with ((major * 256 + mi) * 2 ^ 8) by lia.
    rewrite (Js.lor_shifted_add (major * 256 + mi) pa 8) by lia.
    rewrite Js.toInt32_small by lia. lia. }
  split.
  - apply Hpack; assumption.
  - rewrite version_defaults, Hpack by lia. lia.
Qed.

Lemma version_packs_24_bits_witness :
  version 98 (Some 7) (Some 3) = 98 * 65536 + 7 * 256 + 3
  /\ version 98 None None = 98 * 65536.
Proof. apply (version_packs_24_bits 98 7 3); lia. Defined.

(** *** The order of the calls of the processors *)
Section Order.
Context {Page SourceMap Options : Type}.
Context (stringify : option SourceMap -> string) (options : Options) (includes : string).
Context (env : @answers Page SourceMap Options).
Import Js.
Implicit Types (files : list Page) (history : list (@event Page SourceMap Options)).

Lemma run_bind {R S : Type} (p : prog R) (k : R -> prog S) history :
  run env (bind p k) history
  = let '(history', r) := run env p history in run env (k r) history'.
Proof.
  revert history. induction p as [r | X c h IH]; intros history; cbn; [reflexivity |].
  apply IH.
Qed.

(** A run of the body for one page: the page is prepared, compiled and
    saved, or prepared and the compilation throws. *)
Definition page_run (compiles : label) (body : Page -> prog (result unit)) : Prop :=
  forall file history, exists new r,
    run env (body file) history = (history ++ new, r)
    /\ ((r = Ok tt /\ label_of <$> new = [Prepares file; compiles; Saves file])
        \/ ((exists e, r = Throw e) /\ label_of <$> new = [Prepares file; compiles])).

Lemma bundle_file_run : page_run Bundles (bundle_file stringify options includes).
Proof.
  intros file history. unfold bundle_file, perform. cbn.
  match goal with
  | |- context [env ?X ?h (BundleAsync ?o)] =>
      destruct (env X h (BundleAsync o)) as [output | e]; cbn
  end.
  - eexists [_; _; _], _. rewrite <- !app_assoc. split; [reflexivity |]. left. done.
  - eexists [_; _], _. rewrite <- !app_assoc. split; [reflexivity |]. right. eauto.
Qed.

Lemma transformer_run : page_run Transforms (lightningCSSTransformer stringify options).
Proof.
  intros file history. unfold lightningCSSTransformer, perform. cbn.
  match goal with
  | |- context [env ?X ?h (Transform ?o)] =>
      destruct (env X h (Transform o)) as [output | e]; cbn
  end.
  - eexists [_; _; _], _. rewrite <- !app_assoc. split; [reflexivity |]. left. done.
  - eexists [_; _], _. rewrite <- !app_assoc. split; [reflexivity |]. right. eauto.
Qed.

(** A loop over pages with such a body handles them one by one, and stops
    short exactly when it throws. *)
Lemma for_of_one_by_one compiles body files history :
  page_run compiles body ->
  exists new r,
    run env (for_of files body) history = (history ++ new, r)
    /\ (label_of <$> new) `prefix_of` one_by_one compiles files
    /\ (r = Ok tt <-> label_of <$> new = one_by_one compiles files).
Proof.
  intros Hbody. revert history.
  induction files as [| file files IH]; intros history; cbn [for_of].
  - exists [], (Ok tt). rewrite app_nil_r. cbn. done.
  - rewrite run_bind.
    destruct (Hbody file history) as (new & r & -> & [[-> Hnew] | [[e ->] Hnew]]).
    + destruct (IH (history ++ new)) as (new' & r' & -> & Hprefix & Hok).
      exists (new ++ new'), r'. rewrite app_assoc. split; [reflexivity |].
      rewrite fmap_app, Hnew.
      change (one_by_one compiles (file :: files))
        with ([Prepares file; compiles; Saves file] ++ one_by_one compiles files).
      split; [by apply prefix_app |].
      rewrite Hok. split; [by intros -> | by intros ?%app_inv_head].
    + exists new, (Throw e). split; [reflexivity |]. rewrite Hnew. split.
      * exists (Saves file :: one_by_one compiles files). reflexivity.
      * split; [discriminate |]. intros Heq. cbn in Heq. discriminate Heq.
Qed.

Lemma one_by_one_lookup compiles files (i : nat) :
  one_by_one compiles files !! (3 * i)%nat = Prepares <$> files !! i
  /\ one_by_one compiles files !! (3 * i + 1)%nat = (fun _ => compiles) <$> files !! i
  /\ one_by_one compiles files !! (3 * i + 2)%nat = Saves <$> files !! i.
Proof.
  revert i. induction files as [| file files IH]; intros i; [done |].
  destruct i as [| i]; [done |].
  replace (3 * S i)%nat with (S (S (S (3 * i))))%nat by lia.
  apply (IH i).
Qed.

(** C7: whatever the rest of the system answers, the calls of
    [lightningCSSBundler] over a list of pages are those of a processor that
    handles the pages one by one, in the order of the list, each page
    prepared, bundled and saved before the next is touched, up to the call
    that throws, and all of them when none does. In particular, when the
    call that bundles page [i + 1] is made (call number [3 * (i + 1) + 1]),
    the asset of page [i] has been saved (call number [3 * i + 2]). The
    processor without includes, [pages.forEach(lightningCSSTransformer)],
    makes its calls page by page as well, one of the orders it is free to
    take. *)
Theorem bundler_handles_pages_one_by_one files :
  let bundler := run env (lightningCSSBundler stringify options includes files) [] in
  let calls := bundler.1 in
  (label_of <$> calls) `prefix_of` one_by_one Bundles files
  /\ (bundler.2 = Ok tt <-> label_of <$> calls = one_by_one Bundles files)
  /\ (forall (i : nat) e,
        calls !! (3 * (i + 1) + 1)%nat = Some e ->
        label_of e = Bundles
        /\ exists file, files !! i = Some file
                        /\ label_of <$> calls !! (3 * i + 2)%nat = Some (Saves file))
  /\ (label_of <$> (run env (transformer stringify options files) []).1)
      `prefix_of` one_by_one Transforms files.
Proof.
  cbn zeta.
  destruct (for_of_one_by_one Bundles (bundle_file stringify options includes) files []
              bundle_file_run) as (calls & r & Hrun & Hprefix & Hok).
  unfold lightningCSSBundler. rewrite Hrun. cbn [fst snd app].
  split; [exact Hprefix |]. split; [exact Hok |]. split.
  - intros i e He.
    assert (Hlabel : (label_of <$> calls) !! (3 * (i + 1) + 1)%nat = Some (label_of e))
      by (by rewrite list_lookup_fmap, He).
    destruct Hprefix as [rest Hrest].
    assert (Hwithin : forall n, (n < length (label_of <$> calls))%nat ->
              (label_of <$> calls) !! n = one_by_one Bundles files !! n).
    { intros n Hn. rewrite Hrest. symmetry. by apply lookup_app_l. }
    pose proof (lookup_lt_Some _ _ _ Hlabel) as Hlen.
    rewrite Hwithin in Hlabel by exact Hlen.
    destruct (one_by_one_lookup Bundles files (i + 1)) as (_ & Hcompiles & _).
    rewrite Hcompiles in Hlabel.
    destruct (files !! (i + 1)%nat) as [next |] eqn:Hnext; [| discriminate].
    injection Hlabel as <-. split; [reflexivity |].
    destruct (files !! i) as [file |] eqn:Hfile.
    + exists file. split; [reflexivity |].
      rewrite <- list_lookup_fmap, Hwithin by lia.
      destruct (one_by_one_lookup Bundles files i) as (_ & _ & Hsaves).
      rewrite Hsaves, Hfile. reflexivity.
    + apply lookup_ge_None in Hfile. apply lookup_lt_Some in Hnext. lia.
  - destruct (for_of_one_by_one Transforms (lightningCSSTransformer stringify options) files []
                transformer_run) as (calls' & r' & Hrun' & Hprefix' & _).
    unfold transformer. rewrite Hrun'. exact Hprefix'.
Qed.

End Order.

(** A run on two stylesheets, against a site that answers every call, and
    one against a library that fails on the first of them. *)
Definition demo_site (failing : string) : @answers string unit unit :=
  fun X _ c =>
    match c in call X return X with
    | PrepareAsset file =>
        {| content := "css of " +:+ file; filename := file;
           sourceMap := None; enableSourceMap := false |}
    | Transform opts =>
        Js.Ok {| code := transform_code opts; map := EmptyString |}
    | BundleAsync opts =>
        if bool_decide (bundle_filename opts = failing) then Js.Throw "the bundle failed"
        else Js.Ok {| code := bundle_read_own opts; map := EmptyString |}
    | SaveAsset _ _ _ => tt
    end.

Example bundler_two_pages :
  let bundler :=
    run (demo_site "none.css")
      (lightningCSSBundler (fun _ => EmptyString) tt "_includes" ["a.css"; "b.css"]%string) [] in
  label_of <$> bundler.1
  = [Prepares "a.css"; Bundles; Saves "a.css"; Prepares "b.css"; Bundles; Saves "b.css"]%string
  /\ bundler.2 = Js.Ok tt.
Proof. vm_compute. auto. Qed.

Example bundler_first_page_fails :
  let bundler :=
    run (demo_site "a.css")
      (lightningCSSBundler (fun _ => EmptyString) tt "_includes" ["a.css"; "b.css"]%string) [] in
  label_of <$> bundler.1 = [Prepares "a.css"; Bundles]%string
  /\ bundler.2 = Js.Throw "the bundle failed".
Proof. vm_compute. auto. Qed.

(** *** More on [version] *)

Lemma version_of_bytes major minor patch :
  0 <= major < 256 -> 0 <= minor < 256 -> 0 <= patch < 256 ->
  version major (Some minor) (Some patch) = major * 65536 + minor * 256 + patch.
Proof.
  intros Hmajor Hminor Hpatch. unfold version, Js.bor, Js.shl. simpl default.
  change (16 mod 32) with 16. change (8 mod 32) with 8.
  rewrite !(Js.toInt32_small major), !(Js.toInt32_small minor),
    !(Js.toInt32_small patch) by lia.
  rewrite !Z.shiftl_mul_pow2 by lia.
  rewrite !(Js.toInt32_small (major * 2 ^ 16)), !(Js.toInt32_small (minor * 2 ^ 8)) by lia.
  rewrite (Js.lor_shifted_add major (minor * 2 ^ 8) 16) by lia.
  rewrite !(Js.toInt32_small (major * 2 ^ 16 + minor * 2 ^ 8)) by lia.
  replace (major * 2 ^ 16 + minor * 2 ^ 8) with ((major * 256 + minor) * 2 ^ 8) by lia.
  rewrite (Js.lor_shifted_add (major * 256 + minor) patch 8) by lia.
  rewrite Js.toInt32_small by lia. lia.
Qed.

(** X9: on byte-sized components, [version] keeps the order of versions: one
    packed number is below another exactly when its version comes first,
    major before minor before patch. *)
Theorem version_keeps_order (major minor patch major' minor' patch' : Z) :
  0 <= major < 256 -> 0 <= minor < 256 -> 0 <= patch < 256 ->
  0 <= major' < 256 -> 0 <= minor' < 256 -> 0 <= patch' < 256 ->
  version major (Some minor) (Some patch) < version major' (Some minor') (Some patch')
  <-> major < major'
      \/ (major = major' /\ (minor < minor' \/ (minor = minor' /\ patch < patch'))).
Proof.
  intros. rewrite !version_of_bytes by assumption. lia.
Qed.

Lemma version_keeps_order_witness :
  version 15 (Some 6) (Some 1) < version 16 (Some 0) (Some 0)
  <-> 15 < 16 \/ (15 = 16 /\ (6 < 0 \/ (6 = 0 /\ 1 < 0))).
Proof. apply (version_keeps_order 15 6 1 16 0 0); lia. Defined.

(** X10: on byte-sized components, the three components can be read back
    from the packed number, which lies below [2^24]. *)
Theorem version_reads_back (major minor patch : Z) :
  0 <= major < 256 -> 0 <= minor < 256 -> 0 <= patch < 256 ->
  let v := version major (Some minor) (Some patch) in
  v / 65536 = major /\ (v / 256) mod 256 = minor /\ v mod 256 = patch
  /\ 0 <= v < 2 ^ 24.
Proof.
  intros Hmajor Hminor Hpatch. cbn zeta. rewrite version_of_bytes by assumption.
  repeat split; try lia.
  - symmetry. apply (Z.div_unique _ _ _ (minor * 256 + patch)); lia.
  - replace ((major * 65536 + minor * 256 + patch) / 256) with (major * 256 + minor)
      by (apply (Z.div_unique _ _ _ patch); lia).
    symmetry. apply (Z.mod_unique _ _ major); lia.
  - symmetry. apply (Z.mod_unique _ _ (major * 256 + minor)); lia.
Qed.

Lemma version_reads_back_witness :
  let v := version 15 (Some 6) (Some 1) in
  v / 65536 = 15 /\ (v / 256) mod 256 = 6 /\ v mod 256 = 1 /\ 0 <= v < 2 ^ 24.
Proof. apply (version_reads_back 15 6 1); lia. Defined.

Lemma toInt32_unfold z : Js.toInt32 z = z - 2 ^ 32 * ((z + 2 ^ 31) / 2 ^ 32).
Proof. unfold Js.toInt32. rewrite Z.mod_eq by lia. lia. Qed.

Lemma shl_16_wraps major k : Js.shl (major + 65536 * k) 16 = Js.shl major 16.
Proof.
  unfold Js.shl. change (16 mod 32) with 16. rewrite !Z.shiftl_mul_pow2 by lia.
  rewrite (toInt32_unfold (major + 65536 * k)), (toInt32_unfold major).
  set (q := (major + 65536 * k + 2 ^ 31) / 2 ^ 32).
  set (q' := (major + 2 ^ 31) / 2 ^ 32).
  unfold Js.toInt32. f_equal.
  replace ((major + 65536 * k - 2 ^ 32 * q) * 2 ^ 16 + 2 ^ 31)
    with ((major - 2 ^ 32 * q') * 2 ^ 16 + 2 ^ 31 + (k - 2 ^ 16 * q + 2 ^ 16 * q') * 2 ^ 32)
    by lia.
  apply Z_mod_plus_full.
Qed.

(** X11: only the low 16 bits of [major] count: adding a multiple of 65536
    to it changes nothing, whatever the other components are. *)
Theorem version_major_wraps (major k : Z) (minor patch : option Z) :
  version (major + 65536 * k) minor patch = version major minor patch.
Proof. unfold version. by rewrite shl_16_wraps. Qed.

(** *** A processor whose library call fails *)
Section Failure.
Context {Page SourceMap Options : Type}.
Context (stringify : option SourceMap -> string) (options : Options) (includes : string).
Context (env : @answers Page SourceMap Options).
Import Js.
Implicit Types (files : list Page) (history : list (@event Page SourceMap Options)).

(** What the library answered to a call, [history] being the calls made
    before it: the outcome of [transform] or of [bundleAsync], and nothing
    for a call that is not the library's. *)
Definition library_answer history (e : @event Page SourceMap Options)
    : option (result Output) :=
  match projT2 e with
  | Transform opts => Some (env _ history (Transform opts))
  | BundleAsync opts => Some (env _ history (BundleAsync opts))
  | _ => None
  end.

(** The compiling call of a processor. *)
Definition compiling : @label Page :=
  if bool_decide (includes = EmptyString) then Transforms else Bundles.

(** A body that prepares its page, calls the library and follows its
    answer: it saves the page and returns when the library returned, and
    throws what the library threw, after no other call, when it threw. *)
Definition follows_library (compiles : label) (body : Page -> prog (result unit)) : Prop :=
  forall file history, exists prepare compile,
    label_of prepare = Prepares file /\ label_of compile = compiles
    /\ match library_answer (history ++ [prepare]) compile with
       | Some (Ok _) =>
           exists save, label_of save = Saves file
             /\ run env (body file) history = (history ++ [prepare; compile; save], Ok tt)
       | Some (Throw e) =>
           run env (body file) history = (history ++ [prepare; compile], Throw e)
       | None => False
       end.

Lemma bundle_file_follows : follows_library Bundles (bundle_file stringify options includes).
Proof.
  intros file history. unfold bundle_file, perform. cbn.
  set (asset := env _ history (PrepareAsset file)).
  exists (@existT Type (fun X => LightningCss.call X) _ (PrepareAsset file)),
    (@existT Type (fun X => LightningCss.call X) _ (BundleAsync
       {| bundle_filename := filename asset; bundle_sourceMap := enableSourceMap asset;
          bundle_inputSourceMap := stringify (sourceMap asset); bundle_options := options;
          bundle_includes := includes; bundle_read_own := content asset |})).
  split; [reflexivity |]. split; [reflexivity |]. unfold library_answer, event. cbn.
  match goal with
  | |- context [env ?X ?h (BundleAsync ?o)] =>
      destruct (env X h (BundleAsync o)) as [output | e]; cbn
  end.
  - eexists (@existT Type (fun X => LightningCss.call X) _ (SaveAsset file _ _)). split; [reflexivity |].
    cbn. by rewrite <- !app_assoc.
  - by rewrite <- !app_assoc.
Qed.

Lemma transformer_follows :
  follows_library Transforms (lightningCSSTransformer stringify options).
Proof.
  intros file history. unfold lightningCSSTransformer, perform. cbn.
  set (asset := env _ history (PrepareAsset file)).
  exists (@existT Type (fun X => LightningCss.call X) _ (PrepareAsset file)),
    (@existT Type (fun X => LightningCss.call X) _ (Transform
       {| transform_filename := filename asset; transform_code := content asset;
          transform_sourceMap := enableSourceMap asset;
          transform_inputSourceMap := stringify (sourceMap asset);
          transform_options := options |})).
  split; [reflexivity |]. split; [reflexivity |]. unfold library_answer, event. cbn.
  match goal with
  | |- context [env ?X ?h (Transform ?o)] =>
      destruct (env X h (Transform o)) as [output | e]; cbn
  end.
  - eexists (@existT Type (fun X => LightningCss.call X) _ (SaveAsset file _ _)). split; [reflexivity |].
    cbn. by rewrite <- !app_assoc.
  - by rewrite <- !app_assoc.
Qed.

Lemma library_answer_prepare history e file :
  label_of e = Prepares file -> library_answer history e = None.
Proof. destruct e as [X []]; cbn; intros H; done. Qed.

Lemma library_answer_save history e file :
  label_of e = Saves file -> library_answer history e = None.
Proof. destruct e as [X []]; cbn; intros H; done. Qed.

(** The calls of a run that was stopped by the library at its call number
    [n], and its outcome. *)
Definition stopped_at (compiles : label) (files : list Page) (n : nat) (message : string)
    (calls : list (@event Page SourceMap Options)) (outcome : result unit) : Prop :=
  outcome = Throw message
  /\ length calls = S n
  /\ exists handled failing rest,
       files = handled ++ failing :: rest
       /\ label_of <$> calls = one_by_one compiles handled ++ [Prepares failing; compiles].

Lemma for_of_stops_at_failure compiles body files history :
  follows_library compiles body ->
  exists new r,
    run env (for_of files body) history = (history ++ new, r)
    /\ forall (n : nat) c message,
         new !! n = Some c ->
         library_answer (history ++ take n new) c = Some (Throw message) ->
         stopped_at compiles files n message new r.
Proof.
  intros Hbody. revert history.
  induction files as [| file files IH]; intros history; cbn [for_of].
  - exists [], (Ok tt). rewrite app_nil_r. split; [reflexivity |].
    intros n c message Hc. by rewrite lookup_nil in Hc.
  - rewrite run_bind.
    destruct (Hbody file history) as (prepare & compile & Hprepare & Hcompile & Hrun).
    destruct (library_answer (history ++ [prepare]) compile) as [[output | e] |] eqn:Hanswer;
      [| | done].
    + destruct Hrun as (save & Hsave & ->).
      destruct (IH (history ++ [prepare; compile; save])) as (new & r & -> & Hstop).
      exists ([prepare; compile; save] ++ new), r. rewrite app_assoc.
      split; [reflexivity |].
      intros [| [| [| n]]] c message Hc Hthrows; cbn in Hc, Hthrows.
      * injection Hc as <-. by rewrite (library_answer_prepare _ _ file) in Hthrows.
      * injection Hc as <-. rewrite Hanswer in Hthrows. discriminate Hthrows.
      * injection Hc as <-. by rewrite (library_answer_save _ _ file) in Hthrows.
      * replace (history ++ prepare :: compile :: save :: take n new)
          with ((history ++ [prepare; compile; save]) ++ take n new) in Hthrows
          by (by rewrite <- app_assoc).
        destruct (Hstop n c message Hc Hthrows)
          as (-> & Hlength & handled & failing & rest & -> & Hlabels).
        split; [reflexivity |]. split; [cbn; by rewrite Hlength |].
        exists (file :: handled), failing, rest. split; [reflexivity |].
        rewrite fmap_app, Hlabels. cbn. by rewrite Hprepare, Hcompile, Hsave.
    + rewrite Hrun. exists [prepare; compile], (Throw e). split; [reflexivity |].
      intros [| [| n]] c message Hc Hthrows; cbn in Hc, Hthrows.
      * injection Hc as <-. by rewrite (library_answer_prepare _ _ file) in Hthrows.
      * injection Hc as <-. rewrite Hanswer in Hthrows. injection Hthrows as ->.
        split; [reflexivity |]. split; [reflexivity |].
        exists [], file, files. split; [reflexivity |]. cbn. by rewrite Hprepare, Hcompile.
      * by destruct n.
Qed.

(** X12: when the library throws at a call of the processor that the
    plugin registers (the bundler with includes, the transformer of each
    page without), the processor stops at that call: it throws what the
    library threw and makes no further call, so the failing page is not
    saved and no later page is touched; the calls before are those of the
    pages before it, each prepared, compiled and saved. This holds whatever
    the rest of the system answers. *)
Theorem processors_stop_at_failure files (n : nat) (c : @event Page SourceMap Options)
    (message : string) :
  let processed := run env (processor stringify options includes files) [] in
  processed.1 !! n = Some c ->
  library_answer (take n processed.1) c = Some (Throw message) ->
  stopped_at compiling files n message processed.1 processed.2.
Proof.
  cbn zeta. unfold processor, compiling, lightningCSSBundler, transformer.
  case_bool_decide.
  - destruct (for_of_stops_at_failure Transforms (lightningCSSTransformer stringify options)
                files [] transformer_follows) as (calls & r & -> & Hstop).
    apply Hstop.
  - destruct (for_of_stops_at_failure Bundles (bundle_file stringify options includes)
                files [] bundle_file_follows) as (calls & r & -> & Hstop).
    apply Hstop.
Qed.

End Failure.

(** The bundler on two stylesheets, the library failing on the second: the
    fifth call is the one that throws. *)
Lemma processors_stop_at_failure_witness :
  let files := ["a.css"; "b.css"]%string in
  let processed :=
    run (demo_site "b.css") (processor (fun _ => EmptyString) tt "_includes" files) [] in
  stopped_at (compiling "_includes") files 4 "the bundle failed" processed.1 processed.2.
Proof.
  apply (processors_stop_at_failure (fun _ => EmptyString) tt "_includes" (demo_site "b.css")
           ["a.css"; "b.css"]%string 4
           (existT _ (BundleAsync
              {| bundle_filename := "b.css"; bundle_sourceMap := false;
                 bundle_inputSourceMap := EmptyString; bundle_options := tt;
                 bundle_includes := "_includes"; bundle_read_own := "css of b.css" |}))
           "the bundle failed").
  - vm_compute. reflexivity.
  - vm_compute. reflexivity.
Defined.

End LightningCss.

(** ** plugins/liquid.ts *)
Module Liquid.
Import Js.

Section LiquidEngine.
(** Compiled templates ([Template[]]) and the data a template is rendered
    with belong to liquidjs. *)
Context {Template Data : Type}.

(** The functions of the [Liquid] object that the engine calls. Each of them
    can throw (a syntax error in the template, a failing filter). *)
Record Liquid : Type := {
  liquid_parse : string -> string -> result Template;
  liquid_render : Template -> Data -> result string;
  liquid_renderSync : Template -> Data -> result string;
  liquid_parseAndRender : string -> Data -> result string;
  liquid_parseAndRenderSync : string -> Data -> result string;
}.

(** [posix.join] of deps/path.ts. *)
Variable posix_join : string -> string -> string.

(** The fields of [class LiquidEngine]. *)
Record LiquidEngine : Type := {
  liquid : Liquid;
  cache : gmap string Template;
  basePath : string;
  includes : string;
}.

Definition set_cache (f : gmap string Template -> gmap string Template)
    (e : LiquidEngine) : LiquidEngine :=
  {| liquid := liquid e; cache := f (cache e);
     basePath := basePath e; includes := includes e |}.

(** [constructor(liquid, basePath, includes)]: the cache starts empty. *)
Definition new (l : Liquid) (base incl : string) : LiquidEngine :=
  {| liquid := l; cache := ∅; basePath := base; includes := incl |}.

(** [deleteCache(file) { this.cache.delete(file); }] *)
Definition deleteCache (file : string) (e : LiquidEngine) : LiquidEngine :=
  set_cache (delete file) e.

(** [getTemplate(content, filename)]: parse and store the template unless the
    cache has the filename, then return [this.cache.get(filename)]. *)
Definition getTemplate (content filename : string) : method LiquidEngine Template :=
  has ← reads (fun e => bool_decide (is_Some (cache e !! filename)));
  (if has : bool then mret tt
   else
     l ← reads liquid;
     base ← reads basePath;
     t ← call (liquid_parse l content (posix_join base filename));
     update (set_cache <[filename := t]>));;
  entry ← reads (fun e => cache e !! filename);
  match entry with
  | Some t => mret t
  | None => call (Throw "template is undefined")
  end.

(** [async render(content, data, filename)] *)
Definition render (content : string) (data : Data) (filename : option string)
    : method LiquidEngine string :=
  l ← reads liquid;
  match given filename with
  | None => call (liquid_parseAndRender l content data)
  | Some f =>
      template ← getTemplate content f;
      call (liquid_render l template data)
  end.

(** [renderComponent(content, data, filename)] *)
Definition renderComponent (content : string) (data : Data) (filename : option string)
    : method LiquidEngine string :=
  l ← reads liquid;
  match given filename with
  | None => call (liquid_parseAndRenderSync l content data)
  | Some f =>
      template ← getTemplate content f;
      call (liquid_renderSync l template data)
  end.

End LiquidEngine.
Arguments Liquid : clear implicits.
Arguments LiquidEngine : clear implicits.

End Liquid.

(** ** plugins/pug.ts *)
Module Pug.
Import Js.

Section PugEngine.
(** Render data, the options of the Pug compiler and the table of filters
    are JavaScript objects of the library. *)
Context {Data PugOptions Filters : Type}.

(** A compiled template is a function from the data to the output. *)
Local Abbreviation Compiled := (Data -> result string).

(** [join] of deps/path.ts. *)
Variable join : string -> string -> string.
(** [{ ...options, filename }] *)
Variable with_filename : PugOptions -> string -> PugOptions.
(** [{ ...data, filters: { ...data?.filters || {}, ...filters } }] *)
Variable with_filters : Data -> Filters -> Data.

(** The fields of [class PugEngine]. *)
Record PugEngine : Type := {
  options : PugOptions;
  compiler : string -> PugOptions -> result Compiled;
  filters : Filters;
  cache : gmap string Compiled;
  basePath : string;
  includes : string;
}.

Definition set_cache (f : gmap string Compiled -> gmap string Compiled)
    (e : PugEngine) : PugEngine :=
  {| options := options e; compiler := compiler e; filters := filters e;
     cache := f (cache e); basePath := basePath e; includes := includes e |}.

(** [deleteCache() { this.cache.clear(); }]: the method takes no filename. *)
Definition deleteCache (e : PugEngine) : PugEngine :=
  set_cache (fun _ => ∅) e.

(** [renderComponent(content, data, filename)] *)
Definition renderComponent (content : string) (data : Data) (filename : option string)
    : method PugEngine string :=
  fs ← reads filters;
  let dataWithFilters := with_filters data fs in
  compile ← reads compiler;
  opts ← reads options;
  match given filename with
  | None =>
      template ← call (compile content opts);
      call (template dataWithFilters)
  | Some f =>
      has ← reads (fun e => bool_decide (is_Some (cache e !! f)));
      (if has : bool then mret tt
       else
         base ← reads basePath;
         template ← call (compile content (with_filename opts (join base f)));
         update (set_cache <[f := template]>));;
      entry ← reads (fun e => cache e !! f);
      match entry with
      | Some template => call (template dataWithFilters)
      | None => call (Throw "template is undefined")
      end
  end.

(** [render(content, data, filename)] returns [this.renderComponent(...)]. *)
Definition render (content : string) (data : Data) (filename : option string)
    : method PugEngine string :=
  renderComponent content data filename.

(** The helper functions, and the two tables a filter is written to:
    [this.filters[name] = fn] and [this.options.filters[name] = filter],
    [filter] being [fn] wrapped for the Pug compiler, after
    [this.options.filters ||= {}]. *)
Context {Helper : Type}.
Variable set_filter : Filters -> string -> Helper -> Filters.
Variable set_option_filter : PugOptions -> string -> Helper -> PugOptions.

(** [addHelper(name, fn, options)]: [switch (options.type)] has the one case
    filter. *)
Definition addHelper (name : string) (fn : Helper) (type : string) (e : PugEngine)
    : PugEngine :=
  if bool_decide (type = "filter") then
    {| options := set_option_filter (options e) name fn;
       compiler := compiler e;
       filters := set_filter (filters e) name fn;
       cache := cache e; basePath := basePath e; includes := includes e |}
  else e.

End PugEngine.
Arguments PugEngine : clear implicits.

End Pug.

(** ** plugins/jsx.ts *)
Module Jsx.

Section JsxEngine.
(** The helper functions handed to the components. *)
Context {Helper : Type}.

(** The fields of [class JsxEngine]: there is no template cache among them. *)
Record JsxEngine : Type := {
  jsxImportSource : string;
  helpers : gmap string Helper;
  basePath : string;
  includes : string;
}.

(** [deleteCache() {}] *)
Definition deleteCache (e : JsxEngine) : JsxEngine := e.

(** [addHelper(name, fn) { this.helpers[name] = fn; }] *)
Definition addHelper (name : string) (fn : Helper) (e : JsxEngine) : JsxEngine :=
  {| jsxImportSource := jsxImportSource e; helpers := <[name := fn]> (helpers e);
     basePath := basePath e; includes := includes e |}.

End JsxEngine.
Arguments JsxEngine : clear implicits.

End Jsx.

(** ** The compiled-template caches of the engines *)
Module Engines.
Import Js.

(** The part of the [Engine] interface of core/renderer.ts that concerns
    compiled templates: the entries an engine keeps, by filename, and
    [deleteCache(file)]. *)
Class TemplateCache (E T : Type) : Type := {
  cached : E -> gmap string T;
  delete_cache : string -> E -> E;
}.

#[export] Instance liquid_cache {Template Data : Type} :
    TemplateCache (Liquid.LiquidEngine Template Data) Template :=
  {| cached := Liquid.cache; delete_cache := Liquid.deleteCache |}.

#[export] Instance pug_cache {Data PugOptions Filters : Type} :
    TemplateCache (Pug.PugEngine Data PugOptions Filters) (Data -> result string) :=
  {| cached := Pug.cache; delete_cache := fun _ => Pug.deleteCache |}.

(** JsxEngine keeps no compiled template. *)
#[export] Instance jsx_cache {Helper : Type} :
    TemplateCache (Jsx.JsxEngine Helper) Empty_set :=
  {| cached := fun _ => ∅; delete_cache := fun _ => Jsx.deleteCache |}.

(** [deleteCache(f)] removes the entry of [f] and no other. *)
Definition deletes_one_entry (E : Type) {T : Type} `{!TemplateCache E T} : Prop :=
  forall (e : E) (f g : string),
    cached (delete_cache f e) !! g = if decide (g = f) then None else cached e !! g.

(** [deleteCache(f)] removes every entry. *)
Definition deletes_every_entry (E : Type) {T : Type} `{!TemplateCache E T} : Prop :=
  forall (e : E) (f g : string), cached (delete_cache f e) !! g = None.

(** Stand-ins for the libraries, for concrete runs: a template is its source
    text and renders to it. *)
Definition echo_liquid : Liquid.Liquid string unit :=
  {| Liquid.liquid_parse := fun content _ => Ok content;
     Liquid.liquid_render := fun t _ => Ok t;
     Liquid.liquid_renderSync := fun t _ => Ok t;
     Liquid.liquid_parseAndRender := fun content _ => Ok content;
     Liquid.liquid_parseAndRenderSync := fun content _ => Ok content |}.

Definition echo_liquid_engine : Liquid.LiquidEngine string unit :=
  Liquid.new echo_liquid "/src" "_includes".

Definition echo_pug_engine (entries : gmap string (unit -> result string))
    : Pug.PugEngine unit unit unit :=
  {| Pug.options := tt;
     Pug.compiler := fun content _ => Ok (fun _ => Ok content);
     Pug.filters := tt;
     Pug.cache := entries;
     Pug.basePath := "/src";
     Pug.includes := "_includes" |}.

Definition two_pug_entries : gmap string (unit -> result string) :=
  <["a.pug" := fun _ => Ok "a"]> (<["b.pug" := fun _ => Ok "b"]> ∅).

(** Rendering a list of contents one after the other under one filename,
    with no call of [deleteCache] in between. *)
Fixpoint renders {E : Type} (render : string -> method E string)
    (contents : list string) (e : E) : list (result string) * E :=
  match contents with
  | [] => ([], e)
  | c :: rest =>
      let '(r, e1) := render c e in
      let '(rs, e2) := renders render rest e1 in
      (r :: rs, e2)
  end.

(** A stand-in for the path functions: the file below its base path. *)
Definition below (base file : string) : string := base +:+ "/" +:+ file.

(** The reading of the cache by filename for one filename [f]: with no entry
    for [f] yet and a first content that compiles, a render of [c1] and then
    of [c2] under [f] both give the output of the template compiled from
    [c1]. *)
Definition liquid_reuses_first_template {Template Data : Type}
    (posix_join : string -> string -> string) (f : string) : Prop :=
  forall (e : Liquid.LiquidEngine Template Data) (c1 c2 : string) (data : Data) (t : Template),
    Liquid.cache e !! f = None ->
    Liquid.liquid_parse (Liquid.liquid e) c1 (posix_join (Liquid.basePath e) f) = Ok t ->
    (renders (fun c => Liquid.render posix_join c data (Some f)) [c1; c2] e).1
    = [Liquid.liquid_render (Liquid.liquid e) t data;
       Liquid.liquid_render (Liquid.liquid e) t data].

Lemma given_nonempty f : f <> "" -> given (Some f) = Some f.
Proof. intros Hf. unfold given. rewrite bool_decide_eq_false_2; done. Qed.

Section Liquid.
Context {Template Data : Type} (posix_join : string -> string -> string).
Implicit Types (e : Liquid.LiquidEngine Template Data) (t : Template).

Lemma liquid_render_cached e f t content data :
  f <> "" -> Liquid.cache e !! f = Some t ->
  Liquid.render posix_join content data (Some f) e
  = (Liquid.liquid_render (Liquid.liquid e) t data, e).
Proof.
  intros Hf Ht.
  unfold Liquid.render, Liquid.getTemplate, mbind, method_bind, reads, call.
  rewrite (given_nonempty f Hf). cbn. rewrite Ht.
  rewrite bool_decide_eq_true_2 by eauto. cbn. rewrite Ht. cbn.
  destruct (Liquid.liquid_render (Liquid.liquid e) t data); reflexivity.
Qed.

Lemma liquid_render_first e f t content data :
  f <> "" -> Liquid.cache e !! f = None ->
  Liquid.liquid_parse (Liquid.liquid e) content (posix_join (Liquid.basePath e) f) = Ok t ->
  Liquid.render posix_join content data (Some f) e
  = (Liquid.liquid_render (Liquid.liquid e) t data, Liquid.set_cache <[f := t]> e).
Proof.
  intros Hf Hnone Ht.
  unfold Liquid.render, Liquid.getTemplate, mbind, method_bind, reads, call, update.
  rewrite (given_nonempty f Hf). cbn. rewrite Hnone.
  rewrite bool_decide_eq_false_2 by (intros [? ?]; discriminate). cbn.
  rewrite Ht. cbn. rewrite lookup_insert_eq. cbn.
  destruct (Liquid.liquid_render (Liquid.liquid e) t data); reflexivity.
Qed.

Lemma liquid_renders_cached e f t data contents :
  f <> "" -> Liquid.cache e !! f = Some t ->
  renders (fun c => Liquid.render posix_join c data (Some f)) contents e
  = (replicate (length contents) (Liquid.liquid_render (Liquid.liquid e) t data), e).
Proof.
  intros Hf Ht. induction contents as [| c rest IH]; [reflexivity |].
  cbn. rewrite (liquid_render_cached e f t c data Hf Ht), IH. reflexivity.
Qed.

End Liquid.

Section Pug.
Context {Data PugOptions Filters : Type}.
Context (join : string -> string -> string)
  (with_filename : PugOptions -> string -> PugOptions)
  (with_filters : Data -> Filters -> Data).
Implicit Types (e : Pug.PugEngine Data PugOptions Filters) (t : Data -> result string).

Lemma pug_render_cached e f t content data :
  f <> "" -> Pug.cache e !! f = Some t ->
  Pug.render join with_filename with_filters content data (Some f) e
  = (t (with_filters data (Pug.filters e)), e).
Proof.
  intros Hf Ht.
  unfold Pug.render, Pug.renderComponent, mbind, method_bind, reads, call.
  rewrite (given_nonempty f Hf). cbn. rewrite Ht.
  rewrite bool_decide_eq_true_2 by eauto. cbn. rewrite Ht. cbn.
  destruct (t _); reflexivity.
Qed.

Lemma pug_render_first e f t content data :
  f <> "" -> Pug.cache e !! f = None ->
  Pug.compiler e content (with_filename (Pug.options e) (join (Pug.basePath e) f)) = Ok t ->
  Pug.render join with_filename with_filters content data (Some f) e
  = (t (with_filters data (Pug.filters e)), Pug.set_cache <[f := t]> e).
Proof.
  intros Hf Hnone Ht.
  unfold Pug.render, Pug.renderComponent, mbind, method_bind, reads, call, update.
  rewrite (given_nonempty f Hf). cbn. rewrite Hnone.
  rewrite bool_decide_eq_false_2 by (intros [? ?]; discriminate). cbn.
  rewrite Ht. cbn. rewrite lookup_insert_eq. cbn.
  destruct (t _); reflexivity.
Qed.

Lemma pug_renders_cached e f t data contents :
  f <> "" -> Pug.cache e !! f = Some t ->
  renders (fun c => Pug.render join with_filename with_filters c data (Some f)) contents e
  = (replicate (length contents) (t (with_filters data (Pug.filters e))), e).
Proof.
  intros Hf Ht. induction contents as [| c rest IH]; [reflexivity |].
  cbn. rewrite (pug_render_cached e f t c data Hf Ht), IH. reflexivity.
Qed.

End Pug.

(** *** deleteCache *)

Lemma liquid_deletes_one_entry (Template Data : Type) :
  deletes_one_entry (Liquid.LiquidEngine Template Data).
Proof.
  intros e f g. cbn. rewrite lookup_delete. repeat case_decide; congruence.
Qed.

Lemma jsx_deletes_one_entry (Helper : Type) :
  deletes_one_entry (Jsx.JsxEngine Helper).
Proof.
  intros e f g. cbn. rewrite lookup_empty. case_decide; reflexivity.
Qed.

Lemma pug_deletes_every_entry (Data PugOptions Filters : Type) :
  deletes_every_entry (Pug.PugEngine Data PugOptions Filters).
Proof. intros e f g. cbn. apply lookup_empty. Qed.

(** C4, as the claim has it, fails for PugEngine: with compiled templates for
    a.pug and b.pug in the cache, [deleteCache("a.pug")] also drops the entry
    of b.pug. *)
Lemma pug_deleteCache_drops_other_entries :
  ~ deletes_one_entry (Pug.PugEngine unit unit unit).
Proof.
  intros H.
  specialize (H (echo_pug_engine two_pug_entries) "a.pug" "b.pug").
  cbn in H. rewrite lookup_empty in H. discriminate H.
Qed.

(** C4 (amended): [LiquidEngine.deleteCache(f)] removes the cache entry of
    [f] and leaves the entry of every other filename as it was; JsxEngine
    keeps no cache and its [deleteCache] changes nothing; and
    [PugEngine.deleteCache] empties the whole cache, so the entry of [f] is
    gone together with those of all other filenames. *)
Theorem deleteCache_per_engine :
  (forall Template Data : Type, deletes_one_entry (Liquid.LiquidEngine Template Data))
  /\ (forall Helper : Type, deletes_one_entry (Jsx.JsxEngine Helper)
       /\ forall (e : Jsx.JsxEngine Helper), Jsx.deleteCache e = e)
  /\ (forall Data PugOptions Filters : Type,
        deletes_every_entry (Pug.PugEngine Data PugOptions Filters)).
Proof.
  split; [| split].
  - apply liquid_deletes_one_entry.
  - intros Helper. split; [apply jsx_deletes_one_entry | reflexivity].
  - apply pug_deletes_every_entry.
Qed.

(** *** Rendering under one filename *)

(** C8, as the claim has it for every filename, fails at the empty filename:
    [if (!filename)] sends it to [liquid.parseAndRender], which compiles the content
    of each call, so the second render shows the second content. *)
Lemma liquid_empty_filename_not_cached :
  ~ @liquid_reuses_first_template string unit below "".
Proof.
  intros H.
  specialize (H echo_liquid_engine "first" "second" tt "first" eq_refl eq_refl).
  vm_compute in H. discriminate H.
Qed.

(** C8 (amended): for LiquidEngine and PugEngine, for every non-empty
    filename [f] with no cache entry yet and every first content [c1] that
    compiles, the render of [c1] under [f] stores the template compiled from
    [c1], and that render and every later render under [f], whatever its
    content, give the output of that one template on the data; the cache
    holds the entry compiled on the first call throughout. With the filename
    empty or left out, nothing is cached: the call compiles its own content
    and leaves the cache as it is. *)
Theorem cache_keyed_by_filename_alone
    {Template Data PData PugOptions Filters : Type}
    (posix_join join : string -> string -> string)
    (with_filename : PugOptions -> string -> PugOptions)
    (with_filters : PData -> Filters -> PData)
    (le : Liquid.LiquidEngine Template Data)
    (pe : Pug.PugEngine PData PugOptions Filters)
    (f c1 : string) (later : list string)
    (data : Data) (pdata : PData)
    (lt : Template) (pt : PData -> result string) :
  f <> "" ->
  Liquid.cache le !! f = None ->
  Liquid.liquid_parse (Liquid.liquid le) c1 (posix_join (Liquid.basePath le) f) = Ok lt ->
  Pug.cache pe !! f = None ->
  Pug.compiler pe c1 (with_filename (Pug.options pe) (join (Pug.basePath pe) f)) = Ok pt ->
  renders (fun c => Liquid.render posix_join c data (Some f)) (c1 :: later) le
  = (replicate (S (length later)) (Liquid.liquid_render (Liquid.liquid le) lt data),
     Liquid.set_cache <[f := lt]> le)
  /\ renders (fun c => Pug.render join with_filename with_filters c pdata (Some f))
       (c1 :: later) pe
     = (replicate (S (length later)) (pt (with_filters pdata (Pug.filters pe))),
        Pug.set_cache <[f := pt]> pe)
  /\ (forall c,
        let uncached := (Liquid.liquid_parseAndRender (Liquid.liquid le) c data, le) in
        Liquid.render posix_join c data None le = uncached
        /\ Liquid.render posix_join c data (Some "") le = uncached)
  /\ (forall c,
        let uncached :=
          (template ← Pug.compiler pe c (Pug.options pe);
           template (with_filters pdata (Pug.filters pe)), pe) in
        Pug.render join with_filename with_filters c pdata None pe = uncached
        /\ Pug.render join with_filename with_filters c pdata (Some "") pe = uncached).
Proof.
  intros Hf Hlnone Hlt Hpnone Hpt. split; [| split; [| split]].
  - cbn [renders].
    rewrite (liquid_render_first posix_join le f lt c1 data Hf Hlnone Hlt).
    rewrite (liquid_renders_cached posix_join _ f lt data later Hf);
      [reflexivity | apply lookup_insert_eq].
  - cbn [renders].
    rewrite (pug_render_first join with_filename with_filters pe f pt c1 pdata Hf Hpnone Hpt).
    rewrite (pug_renders_cached join with_filename with_filters _ f pt pdata later Hf);
      [reflexivity | apply lookup_insert_eq].
  - intros c. cbn zeta.
    unfold Liquid.render, mbind, method_bind, reads, call. cbn.
    destruct (Liquid.liquid_parseAndRender (Liquid.liquid le) c data); split; reflexivity.
  - intros c. cbn zeta.
    unfold Pug.render, Pug.renderComponent, mbind, method_bind, result_bind, reads, call. cbn.
    destruct (Pug.compiler pe c (Pug.options pe)) as [template |]; cbn;
      [destruct (template _) |]; split; reflexivity.
Qed.

Lemma cache_keyed_by_filename_alone_witness :
  renders (fun c => Liquid.render below c tt (Some "page.liquid"))
    ["first"; "second"; "third"] echo_liquid_engine
  = (replicate 3 (Ok "first"),
     Liquid.set_cache <["page.liquid" := "first"]> echo_liquid_engine)
  /\ renders (fun c => Pug.render below (fun o _ => o) (fun d _ => d) c tt (Some "page.liquid"))
       ["first"; "second"; "third"] (echo_pug_engine ∅)
     = (replicate 3 (Ok "first"),
        Pug.set_cache <["page.liquid" := fun _ => Ok "first"]> (echo_pug_engine ∅)).
Proof.
  refine (let H := cache_keyed_by_filename_alone below below (fun o _ => o) (fun d _ => d)
                     echo_liquid_engine (echo_pug_engine ∅) "page.liquid" "first"
                     ["second"; "third"] tt tt "first" (fun _ => Ok "first")
                     _ _ _ _ _ in conj (proj1 H) (proj1 (proj2 H))).
  - discriminate.
  - reflexivity.
  - reflexivity.
  - reflexivity.
  - reflexivity.
Defined.

(** *** Invalidation, failures and what a render leaves alone *)

(** Stand-ins for the libraries that refuse a template with an unclosed
    output tag. *)
Definition strict_parse {A : Type} (compiled : string -> A) (content : string) : result A :=
  if bool_decide (content = "{{") then Throw "output not closed" else Ok (compiled content).

Definition strict_liquid : Liquid.Liquid string unit :=
  {| Liquid.liquid_parse := fun content _ => strict_parse id content;
     Liquid.liquid_render := fun t _ => Ok t;
     Liquid.liquid_renderSync := fun t _ => Ok t;
     Liquid.liquid_parseAndRender := fun content _ => strict_parse id content;
     Liquid.liquid_parseAndRenderSync := fun content _ => strict_parse id content |}.

Definition strict_pug_engine : Pug.PugEngine unit unit unit :=
  {| Pug.options := tt;
     Pug.compiler := fun content _ => strict_parse (fun c _ => Ok c) content;
     Pug.filters := tt;
     Pug.cache := ∅;
     Pug.basePath := "/src";
     Pug.includes := "_includes" |}.

(** A render changes the cache at most by one new entry, under its own
    filename. *)
Definition only_adds {T : Type} (filename : option string) (before after : gmap string T)
    : Prop :=
  forall g, after !! g = before !! g \/ (filename = Some g /\ before !! g = None).

Lemma liquid_renderComponent_cached {Template Data : Type}
    (posix_join : string -> string -> string)
    (e : Liquid.LiquidEngine Template Data) f t content data :
  f <> "" -> Liquid.cache e !! f = Some t ->
  Liquid.renderComponent posix_join content data (Some f) e
  = (Liquid.liquid_renderSync (Liquid.liquid e) t data, e).
Proof.
  intros Hf Ht.
  unfold Liquid.renderComponent, Liquid.getTemplate, mbind, method_bind, reads, call.
  rewrite (given_nonempty f Hf). cbn. rewrite Ht.
  rewrite bool_decide_eq_true_2 by eauto. cbn. rewrite Ht. cbn.
  destruct (Liquid.liquid_renderSync (Liquid.liquid e) t data); reflexivity.
Qed.

(** X13: [deleteCache] makes the next render compile again: after it, a
    render of a content that compiles under a non-empty filename gives the
    output of the template compiled from that content, whatever was cached
    before; the Liquid cache then holds the new entry in place of the old,
    the Pug cache the new entry alone. *)
Theorem deleteCache_then_render_compiles
    {Template Data PData PugOptions Filters : Type}
    (posix_join join : string -> string -> string)
    (with_filename : PugOptions -> string -> PugOptions)
    (with_filters : PData -> Filters -> PData)
    (le : Liquid.LiquidEngine Template Data)
    (pe : Pug.PugEngine PData PugOptions Filters)
    (f c : string) (data : Data) (pdata : PData)
    (lt : Template) (pt : PData -> result string) :
  f <> "" ->
  Liquid.liquid_parse (Liquid.liquid le) c (posix_join (Liquid.basePath le) f) = Ok lt ->
  Pug.compiler pe c (with_filename (Pug.options pe) (join (Pug.basePath pe) f)) = Ok pt ->
  Liquid.render posix_join c data (Some f) (Liquid.deleteCache f le)
  = (Liquid.liquid_render (Liquid.liquid le) lt data, Liquid.set_cache <[f := lt]> le)
  /\ Pug.render join with_filename with_filters c pdata (Some f) (Pug.deleteCache pe)
     = (pt (with_filters pdata (Pug.filters pe)), Pug.set_cache (fun _ => {[f := pt]}) pe).
Proof.
  intros Hf Hlt Hpt. split.
  - rewrite (liquid_render_first posix_join (Liquid.deleteCache f le) f lt c data Hf);
      [| apply lookup_delete_eq | exact Hlt].
    cbn. f_equal. unfold Liquid.set_cache, Liquid.deleteCache. cbn.
    by rewrite insert_delete_eq.
  - rewrite (pug_render_first join with_filename with_filters (Pug.deleteCache pe)
               f pt c pdata Hf); [| apply lookup_empty | exact Hpt].
    cbn. f_equal.
Qed.

Lemma deleteCache_then_render_compiles_witness :
  Liquid.render below "second" tt (Some "page.liquid")
    (Liquid.deleteCache "page.liquid"
       (Liquid.set_cache <["page.liquid" := "first"]> echo_liquid_engine))
  = (Ok "second",
     Liquid.set_cache <["page.liquid" := "second"]>
       (Liquid.set_cache <["page.liquid" := "first"]> echo_liquid_engine))
  /\ Pug.render below (fun o _ => o) (fun d _ => d) "second" tt (Some "page.liquid")
       (Pug.deleteCache (echo_pug_engine two_pug_entries))
     = (Ok "second",
        Pug.set_cache (fun _ => {["page.liquid" := fun _ => Ok "second"]})
          (echo_pug_engine two_pug_entries)).
Proof.
  apply (deleteCache_then_render_compiles below below (fun o _ => o) (fun d _ => d)
           (Liquid.set_cache <["page.liquid" := "first"]> echo_liquid_engine)
           (echo_pug_engine two_pug_entries) "page.liquid" "second" tt tt
           "second" (fun _ => Ok "second")).
  - discriminate.
  - reflexivity.
  - reflexivity.
Defined.

(** X14: a content that does not compile leaves no trace: under a non-empty
    filename with no cache entry, the render (and, for Liquid, the render of
    a component) throws what the compiler threw and the engine is as it was,
    so that the next render under the filename compiles its own content. *)
Theorem failed_compile_leaves_cache
    {Template Data PData PugOptions Filters : Type}
    (posix_join join : string -> string -> string)
    (with_filename : PugOptions -> string -> PugOptions)
    (with_filters : PData -> Filters -> PData)
    (le : Liquid.LiquidEngine Template Data)
    (pe : Pug.PugEngine PData PugOptions Filters)
    (f c message : string) (data : Data) (pdata : PData) :
  f <> "" ->
  Liquid.cache le !! f = None ->
  Liquid.liquid_parse (Liquid.liquid le) c (posix_join (Liquid.basePath le) f)
  = Throw message ->
  Pug.cache pe !! f = None ->
  Pug.compiler pe c (with_filename (Pug.options pe) (join (Pug.basePath pe) f))
  = Throw message ->
  Liquid.render posix_join c data (Some f) le = (Throw message, le)
  /\ Liquid.renderComponent posix_join c data (Some f) le = (Throw message, le)
  /\ Pug.render join with_filename with_filters c pdata (Some f) pe = (Throw message, pe).
Proof.
  intros Hf Hlnone Hlparse Hpnone Hpcompile. split; [| split].
  - unfold Liquid.render, Liquid.getTemplate, mbind, method_bind, reads, call, update.
    rewrite (given_nonempty f Hf). cbn. rewrite Hlnone.
    rewrite bool_decide_eq_false_2 by (intros [? ?]; discriminate). cbn.
    by rewrite Hlparse.
  - unfold Liquid.renderComponent, Liquid.getTemplate, mbind, method_bind, reads, call, update.
    rewrite (given_nonempty f Hf). cbn. rewrite Hlnone.
    rewrite bool_decide_eq_false_2 by (intros [? ?]; discriminate). cbn.
    by rewrite Hlparse.
  - unfold Pug.render, Pug.renderComponent, mbind, method_bind, reads, call, update.
    rewrite (given_nonempty f Hf). cbn. rewrite Hpnone.
    rewrite bool_decide_eq_false_2 by (intros [? ?]; discriminate). cbn.
    by rewrite Hpcompile.
Qed.

Lemma failed_compile_leaves_cache_witness :
  let le := Liquid.new strict_liquid "/src" "_includes" in
  Liquid.render below "{{" tt (Some "page.liquid") le = (Throw "output not closed", le)
  /\ Liquid.renderComponent below "{{" tt (Some "page.liquid") le
     = (Throw "output not closed", le)
  /\ Pug.render below (fun o _ => o) (fun d _ => d) "{{" tt (Some "page.liquid")
       strict_pug_engine
     = (Throw "output not closed", strict_pug_engine).
Proof.
  apply (failed_compile_leaves_cache below below (fun o _ => o) (fun d _ => d)
           (Liquid.new strict_liquid "/src" "_includes") strict_pug_engine
           "page.liquid" "{{" "output not closed" tt tt).
  - discriminate.
  - reflexivity.
  - reflexivity.
  - reflexivity.
  - reflexivity.
Defined.

Lemma given_Some filename f : given filename = Some f -> filename = Some f.
Proof.
  destruct filename as [f' |]; cbn; [| discriminate].
  case_bool_decide; [discriminate | by intros [= ->]].
Qed.

Lemma liquid_getTemplate_only_adds {Template Data : Type}
    (posix_join : string -> string -> string)
    (e : Liquid.LiquidEngine Template Data) content f :
  let e' := (Liquid.getTemplate posix_join content f e).2 in
  only_adds (Some f) (Liquid.cache e) (Liquid.cache e')
  /\ Liquid.liquid e' = Liquid.liquid e /\ Liquid.basePath e' = Liquid.basePath e.
Proof.
  cbn zeta. unfold Liquid.getTemplate, mbind, method_bind, reads, call, update. cbn.
  destruct (Liquid.cache e !! f) as [t |] eqn:Hf.
  - rewrite bool_decide_eq_true_2 by eauto. cbn. rewrite Hf. cbn.
    split; [| done]. intros g. by left.
  - rewrite bool_decide_eq_false_2 by (intros [? ?]; discriminate). cbn.
    destruct (Liquid.liquid_parse _ _ _) as [t |]; cbn.
    + rewrite lookup_insert_eq. cbn. split; [| done]. intros g.
      destruct (decide (f = g)) as [<- | Hne]; [by right |].
      left. by apply lookup_insert_ne.
    + split; [| done]. intros g. by left.
Qed.

(** X15: a render never removes or replaces a cache entry and never touches
    the entry of another filename: afterwards every filename has the entry
    it had, except that the filename of the render may have got one when it
    had none. This holds for the renders of LiquidEngine and of PugEngine,
    whether they return or throw. *)
Theorem render_only_adds_own_entry
    {Template Data PData PugOptions Filters : Type}
    (posix_join join : string -> string -> string)
    (with_filename : PugOptions -> string -> PugOptions)
    (with_filters : PData -> Filters -> PData)
    (le : Liquid.LiquidEngine Template Data)
    (pe : Pug.PugEngine PData PugOptions Filters)
    (content : string) (data : Data) (pdata : PData) (filename : option string) :
  only_adds filename (Liquid.cache le)
    (Liquid.cache (Liquid.render posix_join content data filename le).2)
  /\ only_adds filename (Liquid.cache le)
       (Liquid.cache (Liquid.renderComponent posix_join content data filename le).2)
  /\ only_adds filename (Pug.cache pe)
       (Pug.cache (Pug.render join with_filename with_filters content pdata filename pe).2).
Proof.
  split; [| split].
  - unfold Liquid.render. unfold mbind at 1. unfold method_bind at 1. cbn.
    destruct (given filename) as [f |] eqn:Hf.
    + pose proof (given_Some _ _ Hf) as ->.
      pose proof (liquid_getTemplate_only_adds posix_join le content f) as (Hadds & _ & _).
      unfold mbind, method_bind.
      destruct (Liquid.getTemplate posix_join content f le) as [[t | message] e']; cbn in *;
        [destruct (Liquid.liquid_render (Liquid.liquid le) t data) | ]; exact Hadds.
    + cbn. destruct (Liquid.liquid_parseAndRender (Liquid.liquid le) content data);
        intros g; by left.
  - unfold Liquid.renderComponent. unfold mbind at 1. unfold method_bind at 1. cbn.
    destruct (given filename) as [f |] eqn:Hf.
    + pose proof (given_Some _ _ Hf) as ->.
      pose proof (liquid_getTemplate_only_adds posix_join le content f) as (Hadds & _ & _).
      unfold mbind, method_bind.
      destruct (Liquid.getTemplate posix_join content f le) as [[t | message] e']; cbn in *;
        [destruct (Liquid.liquid_renderSync (Liquid.liquid le) t data) | ]; exact Hadds.
    + cbn. destruct (Liquid.liquid_parseAndRenderSync (Liquid.liquid le) content data);
        intros g; by left.
  - unfold Pug.render, Pug.renderComponent, mbind, method_bind, reads, call, update. cbn.
    destruct (given filename) as [f |] eqn:Hf.
    + pose proof (given_Some _ _ Hf) as ->.
      destruct (Pug.cache pe !! f) as [t |] eqn:Hentry.
      * rewrite bool_decide_eq_true_2 by eauto. cbn. rewrite Hentry. cbn.
        destruct (t (with_filters pdata (Pug.filters pe))); intros g; by left.
      * rewrite bool_decide_eq_false_2 by (intros [? ?]; discriminate). cbn.
        destruct (Pug.compiler pe content _) as [t |]; cbn.
        -- rewrite lookup_insert_eq. cbn.
           assert (Hadds : only_adds (Some f) (Pug.cache pe) (<[f := t]> (Pug.cache pe))).
           { intros g. destruct (decide (f = g)) as [<- | Hne]; [by right |].
             left. by apply lookup_insert_ne. }
           destruct (t (with_filters pdata (Pug.filters pe))); exact Hadds.
        -- intros g. by left.
    + cbn. destruct (Pug.compiler pe content (Pug.options pe)) as [t |]; cbn;
        [destruct (t (with_filters pdata (Pug.filters pe))) |]; intros g; by left.
Qed.

(** X16: the two renders of LiquidEngine share the cache: under a non-empty
    filename with no entry, after a render of a content that compiles, the
    render of a component under the same filename gives the output of the
    template compiled by the first, whatever content it is given. *)
Theorem liquid_renders_share_cache
    {Template Data : Type} (posix_join : string -> string -> string)
    (e : Liquid.LiquidEngine Template Data)
    (f c1 c2 : string) (data : Data) (t : Template) :
  f <> "" ->
  Liquid.cache e !! f = None ->
  Liquid.liquid_parse (Liquid.liquid e) c1 (posix_join (Liquid.basePath e) f) = Ok t ->
  Liquid.renderComponent posix_join c2 data (Some f)
    (Liquid.render posix_join c1 data (Some f) e).2
  = (Liquid.liquid_renderSync (Liquid.liquid e) t data, Liquid.set_cache <[f := t]> e).
Proof.
  intros Hf Hnone Ht.
  rewrite (liquid_render_first posix_join e f t c1 data Hf Hnone Ht). cbn [snd].
  rewrite (liquid_renderComponent_cached posix_join _ f t c2 data Hf);
    [reflexivity | apply lookup_insert_eq].
Qed.

Lemma liquid_renders_share_cache_witness :
  Liquid.renderComponent below "second" tt (Some "page.liquid")
    (Liquid.render below "first" tt (Some "page.liquid") echo_liquid_engine).2
  = (Ok "first", Liquid.set_cache <["page.liquid" := "first"]> echo_liquid_engine).
Proof.
  apply (liquid_renders_share_cache below echo_liquid_engine "page.liquid"
           "first" "second" tt "first").
  - discriminate.
  - reflexivity.
  - reflexivity.
Defined.

(** X17: registering a helper with PugEngine does not invalidate compiled
    templates: [addHelper] leaves the cache as it is, and a later render
    under a cached non-empty filename runs the template as compiled before,
    on the data with the filters as they are after the registration. *)
Theorem pug_addHelper_keeps_cache
    {Data PugOptions Filters Helper : Type}
    (join : string -> string -> string)
    (with_filename : PugOptions -> string -> PugOptions)
    (with_filters : Data -> Filters -> Data)
    (set_filter : Filters -> string -> Helper -> Filters)
    (set_option_filter : PugOptions -> string -> Helper -> PugOptions)
    (e : Pug.PugEngine Data PugOptions Filters)
    (name type f content : string) (fn : Helper) (data : Data)
    (t : Data -> result string) :
  f <> "" ->
  Pug.cache e !! f = Some t ->
  let e' := Pug.addHelper set_filter set_option_filter name fn type e in
  Pug.cache e' = Pug.cache e
  /\ Pug.render join with_filename with_filters content data (Some f) e'
     = (t (with_filters data (Pug.filters e')), e').
Proof.
  intros Hf Ht. cbn zeta.
  assert (Hcache : Pug.cache (Pug.addHelper set_filter set_option_filter name fn type e)
                   = Pug.cache e)
    by (unfold Pug.addHelper; by case_bool_decide).
  split; [exact Hcache |].
  apply pug_render_cached; [exact Hf | by rewrite Hcache].
Qed.

Lemma pug_addHelper_keeps_cache_witness :
  let e' := Pug.addHelper (fun _ _ (_ : unit) => tt) (fun _ _ _ => tt)
              "quoted" tt "filter" (echo_pug_engine two_pug_entries) in
  Pug.cache e' = Pug.cache (echo_pug_engine two_pug_entries)
  /\ Pug.render below (fun o _ => o) (fun d _ => d) "changed" tt (Some "a.pug") e'
     = (Ok "a", e').
Proof.
  apply (pug_addHelper_keeps_cache below (fun o _ => o) (fun d _ => d)
           (fun _ _ (_ : unit) => tt) (fun _ _ _ => tt)
           (echo_pug_engine two_pug_entries) "quoted" "filter" "a.pug" "changed" tt tt
           (fun _ => Ok "a")).
  - discriminate.
  - reflexivity.
Defined.

End Engines.

(** ** plugins/attributes.ts *)
Module Attributes.
Import Js.

(** The double quote, character 34. *)
Definition dquote : ascii := "034"%char.

(** A text between double quotes. *)
Definition quoted (s : string) : string := String dquote (s +:+ String dquote EmptyString).

(** [const escapeChars] *)
Definition escapeChars (c : ascii) : option string :=
  match c with
  | "&"%char => Some "&amp;"
  | "<"%char => Some "&lt;"
  | ">"%char => Some "&gt;"
  | "034"%char => Some "&#34;"
  | "'"%char => Some "&#39;"
  | _ => None
  end.

(** [value.replace(regexp, (match) => escapeChars[match])] on a string, the
    regular expression matching each of the five characters above, globally. *)
Fixpoint escape_string (value : string) : string :=
  match value with
  | EmptyString => EmptyString
  | String c rest =>
      match escapeChars c with
      | Some entity => entity +:+ escape_string rest
      | None => String c (escape_string rest)
      end
  end.

(** [function escape(value: string)]: the argument is cast, not converted; a
    value without a [replace] method makes the call throw. *)
Definition escape (value : value) : result string :=
  match value with
  | VStr s => Ok (escape_string s)
  | _ => Throw "value.replace is not a function"
  end.

(** A [Set<string>] keeps its members in the order they were added. *)
Definition set_add (s : string) (members : list string) : list string :=
  if bool_decide (s ∈ members) then members else members ++ [s].

(** What [attributes.get("class") || new Set()] evaluates to: a set of class
    names, or any other truthy value stored under the name. *)
Inductive class_list : Type :=
  | ClassSet (members : list string)
  | NotASet (v : value).

(** [classes.add(name)] *)
Definition classes_add (name : string) (classes : class_list) : result class_list :=
  match classes with
  | ClassSet members => Ok (ClassSet (set_add name members))
  | NotASet _ => Throw "classes.add is not a function"
  end.

(** [function handleClass(classes, name)] *)
Fixpoint handleClass (classes : class_list) (name : value) : result class_list :=
  if negb (truthy name) then Ok classes
  else
    match name with
    | VStr s => classes_add s classes
    | VArr items => for_each handleClass items classes
    | VObj entries =>
        for_each (fun cl '(key, v) => if truthy v then classes_add key cl else Ok cl)
          entries classes
    | _ => Ok classes
    end.

(** [export function className(...names)] *)
Definition className (names : list value) : result string :=
  classes ← for_each handleClass names (ClassSet []);
  match classes with
  | ClassSet members => Ok (join " " members)
  | NotASet _ => Throw "unreachable"
  end.

(** The values of the [attributes] map: a value of the input, or the set of
    class names kept under the name class. *)
Inductive attribute : Type :=
  | AVal (v : value)
  | AClasses (members : list string).

(** [attributes.get(name)] and [attributes.set(name, value)] on a [Map],
    which keeps the names in the order of their first insertion. *)
Definition map_get (name : string) (attributes : list (string * attribute))
    : option attribute :=
  snd <$> List.find (fun entry => bool_decide (entry.1 = name)) attributes.

Fixpoint map_set (name : string) (a : attribute) (attributes : list (string * attribute))
    : list (string * attribute) :=
  match attributes with
  | [] => [(name, a)]
  | (n, old) :: rest =>
      if bool_decide (n = name) then (n, a) :: rest
      else (n, old) :: map_set name a rest
  end.

(** [function isValid(name, validNames)] as a condition. *)
Definition isValid (name : string) (validNames : list string) : bool :=
  negb (bool_decide (name = ""))
  && (bool_decide (validNames = []) || bool_decide (name ∈ validNames)).

(** [(attributes.get("class") || new Set())] *)
Definition class_list_of (attributes : list (string * attribute)) : class_list :=
  match map_get "class" attributes with
  | Some (AClasses members) => ClassSet members
  | Some (AVal v) => if truthy v then NotASet v else ClassSet []
  | None => ClassSet []
  end.

Definition attribute_of (classes : class_list) : attribute :=
  match classes with
  | ClassSet members => AClasses members
  | NotASet v => AVal v
  end.

(** [function handleAttributes(attributes, name, validNames)] *)
Fixpoint handleAttributes (validNames : list string)
    (attributes : list (string * attribute)) (name : value)
    : result (list (string * attribute)) :=
  if negb (truthy name) then Ok attributes
  else
    match name with
    | VStr s =>
        Ok (if isValid s validNames then map_set s (AVal (VBool true)) attributes
            else attributes)
    | VArr items => for_each (handleAttributes validNames) items attributes
    | VObj entries =>
        for_each
          (fun attrs '(key, v) =>
             if negb (isValid key validNames) then Ok attrs
             else if bool_decide (key = "class") then
               classList ← handleClass (class_list_of attrs) v;
               Ok (map_set "class" (attribute_of classList) attrs)
             else Ok (map_set key (AVal v) attrs))
          entries attributes
    | _ => Ok attributes
    end.

(** [function joinAttributes(attributes)]: the loop that fills [values]. *)
Definition joinAttributes_step (values : list string) (entry : string * attribute)
    : result (list string) :=
  let '(name, a) := entry in
  match a with
  | AVal VUndefined | AVal VNull | AVal (VBool false) => Ok values
  | AVal (VBool true) => Ok (values ++ [name])
  | AClasses members =>
      match members with
      | [] => Ok values
      | _ =>
          escaped ← escape (VStr (join " " members));
          Ok (values ++ [name +:+ "=" +:+ quoted escaped])
      end
  | AVal v =>
      escaped ← escape v;
      Ok (values ++ [name +:+ "=" +:+ quoted escaped])
  end.

Definition joinAttributes (attributes : list (string * attribute)) : result string :=
  values ← for_each joinAttributes_step attributes [];
  Ok (join " " values).

(** [export function attr(values, ...validNames)] *)
Definition attr (values : value) (validNames : list string) : result string :=
  attributes ← handleAttributes validNames [] values;
  joinAttributes attributes.

(** *** Reference readings

    The class names that a value selects, in the order in which
    [handleClass] meets them: a non-empty string itself, the selection of the
    items of an array, the keys of an object whose values are truthy. *)
Fixpoint selected (name : value) : list string :=
  if negb (truthy name) then []
  else
    match name with
    | VStr s => [s]
    | VArr items => concat (List.map selected items)
    | VObj entries => fst <$> List.filter (fun entry => truthy entry.2) entries
    | _ => []
    end.

(** Adding names to a set one after the other. *)
Definition add_all (names members : list string) : list string :=
  fold_left (fun acc name => set_add name acc) names members.

(** Reading an escaped text back: an entity gives its character, any other
    character itself. [skip] counts the characters of an entity still to
    pass over. *)
Fixpoint unescape_go (skip : nat) (q : string) : string :=
  match q with
  | EmptyString => EmptyString
  | String c rest =>
      match skip with
      | S k => unescape_go k rest
      | O =>
          if Ascii.eqb c "&" then
            if String.prefix "amp;" rest then String "&" (unescape_go 4 rest)
            else if String.prefix "lt;" rest then String "<" (unescape_go 3 rest)
            else if String.prefix "gt;" rest then String ">" (unescape_go 3 rest)
            else if String.prefix "#39;" rest then String "'" (unescape_go 4 rest)
            else if String.prefix "#34;" rest then String dquote (unescape_go 4 rest)
            else String c (unescape_go 0 rest)
          else String c (unescape_go 0 rest)
      end
  end.
Definition unescape (q : string) : string := unescape_go 0 q.

(** The values that [joinAttributes] can print. *)
Definition prints (v : value) : bool :=
  match v with
  | VNum _ | VArr _ | VObj _ => false
  | _ => true
  end.

(** The entries that an input of [attr] holds, in the order in which
    [handleAttributes] meets them: a non-empty string is a bare name, the
    items of an array are gone through in turn, an object gives its
    entries, and any other value gives none. *)
Inductive item : Type :=
  | Bare (name : string)
  | Entry (key : string) (v : value).

Definition item_name (it : item) : string :=
  match it with
  | Bare name => name
  | Entry key _ => key
  end.

(** The value an entry gives its name; a bare name stands for [true]. *)
Definition item_value (it : item) : value :=
  match it with
  | Bare _ => VBool true
  | Entry _ v => v
  end.

Fixpoint items_of (name : value) : list item :=
  if negb (truthy name) then []
  else
    match name with
    | VStr s => [Bare s]
    | VArr items => concat (List.map items_of items)
    | VObj entries => (fun entry => Entry entry.1 entry.2) <$> entries
    | _ => []
    end.

(** The bare names among the entries, and the class names that the entries
    under the name class select, in their order. *)
Definition bare_names (items : list item) : list string :=
  omap (fun it => match it with Bare name => Some name | Entry _ _ => None end) items.

Definition class_names (items : list item) : list string :=
  items ≫= (fun it =>
    match it with
    | Bare _ => []
    | Entry key v => if bool_decide (key = "class") then selected v else []
    end).

(** The entries that count: those under a valid name, one that is not empty
    and, when valid names are given, is one of them. *)
Definition valid (validNames : list string) (it : item) : Prop :=
  item_name it <> "" /\ (validNames = [] \/ item_name it ∈ validNames).

(** What [handleAttributes] does with one entry. *)
Definition item_step (validNames : list string) (attrs : list (string * attribute))
    (it : item) : result (list (string * attribute)) :=
  match it with
  | Bare s =>
      Ok (if isValid s validNames then map_set s (AVal (VBool true)) attrs else attrs)
  | Entry key v =>
      if negb (isValid key validNames) then Ok attrs
      else if bool_decide (key = "class") then
        classList ← handleClass (class_list_of attrs) v;
        Ok (map_set "class" (attribute_of classList) attrs)
      else Ok (map_set key (AVal v) attrs)
  end.

(** *** What the helper promises *)

(** The five characters and their entities, as pairs. *)
Definition entities : list (ascii * string) :=
  [ ("&"%char, "&amp;"); ("<"%char, "&lt;"); (">"%char, "&gt;");
    ("'"%char, "&#39;"); (dquote, "&#34;") ].

Definition special (c : ascii) : Prop := c ∈ entities.*1.

(** [encodes s q]: [q] is [s] with each of the five characters replaced by
    its entity and every other character kept. *)
Inductive encodes : string -> string -> Prop :=
  | encodes_empty : encodes EmptyString EmptyString
  | encodes_entity c entity s q :
      (c, entity) ∈ entities -> encodes s q ->
      encodes (String c s) (entity +:+ q)
  | encodes_other c s q :
      ~ special c -> encodes s q -> encodes (String c s) (String c q).

(** [no_raw q]: [q] is made of entities and of characters other than the
    five, so that none of the five stands in it on its own. *)
Inductive no_raw : string -> Prop :=
  | no_raw_empty : no_raw EmptyString
  | no_raw_entity entity q :
      entity ∈ entities.*2 -> no_raw q -> no_raw (entity +:+ q)
  | no_raw_other c q :
      ~ special c -> no_raw q -> no_raw (String c q).

(** What an entry of the attributes map contributes to the output. *)
Inductive emits : string * attribute -> option string -> Prop :=
  | emits_undefined name : emits (name, AVal VUndefined) None
  | emits_null name : emits (name, AVal VNull) None
  | emits_false name : emits (name, AVal (VBool false)) None
  | emits_true name : emits (name, AVal (VBool true)) (Some name)
  | emits_string name s q :
      encodes s q -> no_raw q ->
      emits (name, AVal (VStr s)) (Some (name +:+ "=" +:+ quoted q))
  | emits_no_class name : emits (name, AClasses []) None
  | emits_classes name members q :
      members <> [] -> encodes (join " " members) q -> no_raw q ->
      emits (name, AClasses members) (Some (name +:+ "=" +:+ quoted q)).

Example attr_title :
  attr (VObj [("title", VStr "a<b & 'c'"); ("hidden", VBool true); ("id", VNull);
              ("class", VArr [VStr "x"; VObj [("y", VBool true); ("z", VBool false)]])]) []
  = Ok ("title=" +:+ quoted "a&lt;b &amp; &#39;c&#39;" +:+ " hidden class=" +:+ quoted "x y").
Proof. reflexivity. Qed.

(** Names outside [validNames] are left out; a later value replaces an
    earlier one in place. *)
Example attr_valid_names :
  attr (VArr [VObj [("a", VStr "1"); ("b", VStr "2")]; VObj [("a", VBool false)]; VStr "c"])
    ["b"; "c"]
  = Ok ("b=" +:+ quoted "2" +:+ " c").
Proof. reflexivity. Qed.

(** A number has no [replace] method: the helper throws. *)
Example attr_number_throws :
  attr (VObj [("tabindex", VNum 1)]) [] = Throw "value.replace is not a function".
Proof. reflexivity. Qed.

Lemma escapeChars_table c :
  match escapeChars c with
  | Some entity => (c, entity) ∈ entities
  | None => ~ special c
  end.
Proof.
  destruct c as [[] [] [] [] [] [] [] []]; cbn [escapeChars]; unfold special;
    apply (bool_decide_unpack _); vm_compute; exact I.
Qed.

Lemma escape_string_encodes s : encodes s (escape_string s).
Proof.
  induction s as [| c s IH]; cbn; [constructor |].
  pose proof (escapeChars_table c) as Hc.
  destruct (escapeChars c) as [entity |].
  - by apply encodes_entity.
  - by apply encodes_other.
Qed.

Lemma encodes_no_raw s q : encodes s q -> no_raw q.
Proof.
  induction 1 as [| c entity s q Hin _ IH | c s q Hc _ IH].
  - constructor.
  - apply no_raw_entity; [| exact IH].
    apply list_elem_of_fmap. exists (c, entity). done.
  - by apply no_raw_other.
Qed.

Lemma escape_string_emits name s :
  emits (name, AVal (VStr s)) (Some (name +:+ "=" +:+ quoted (escape_string s))).
Proof.
  apply emits_string; [apply escape_string_encodes |].
  apply encodes_no_raw with s, escape_string_encodes.
Qed.

(** One round of the loop of [joinAttributes], when it does not throw, adds
    what [emits] allows for the entry. *)
Lemma joinAttributes_step_emits values entry values' :
  joinAttributes_step values entry = Ok values' ->
  exists piece, emits entry piece /\ values' = values ++ from_option (fun p => [p]) [] piece.
Proof.
  destruct entry as [name [v | members]]; cbn.
  - destruct v as [| | [] | n | s | items | entries]; cbn; intros Heq;
      try discriminate Heq; injection Heq as <-.
    + exists None. split; [constructor | by rewrite app_nil_r].
    + exists None. split; [constructor | by rewrite app_nil_r].
    + exists (Some name). split; [constructor | done].
    + exists None. split; [constructor | by rewrite app_nil_r].
    + eexists (Some _). split; [apply escape_string_emits | done].
  - destruct members as [| m members]; cbn; intros Heq; injection Heq as <-.
    + exists None. split; [constructor | by rewrite app_nil_r].
    + eexists (Some _). split; [| done].
      apply emits_classes; [done | apply escape_string_encodes |].
      eapply encodes_no_raw, escape_string_encodes.
Qed.

Lemma joinAttributes_loop_emits attributes values values' :
  for_each joinAttributes_step attributes values = Ok values' ->
  exists pieces, Forall2 emits attributes pieces /\ values' = values ++ omap id pieces.
Proof.
  revert values. induction attributes as [| entry attributes IH]; intros values; cbn.
  - intros [= <-]. exists []. split; [constructor | by rewrite app_nil_r].
  - destruct (joinAttributes_step values entry) as [values1 |] eqn:Hstep; [| discriminate].
    intros Hrest.
    destruct (joinAttributes_step_emits _ _ _ Hstep) as (piece & Hpiece & ->).
    destruct (IH _ Hrest) as (pieces & Hpieces & ->).
    exists (piece :: pieces). split; [by constructor |].
    rewrite <- app_assoc. f_equal. by destruct piece.
Qed.

(** The loop throws exactly on a value that is neither [undefined], [null],
    a boolean, a string nor the set of class names. *)
Definition printable (entry : string * attribute) : bool :=
  match entry.2 with
  | AVal (VNum _) | AVal (VArr _) | AVal (VObj _) => false
  | _ => true
  end.

Lemma joinAttributes_returns attributes :
  forallb printable attributes = true <-> exists out, joinAttributes attributes = Ok out.
Proof.
  unfold joinAttributes.
  assert (Hloop : forall values,
            forallb printable attributes = true
            <-> exists values', for_each joinAttributes_step attributes values = Ok values').
  { induction attributes as [| [name a] attributes IH]; intros values; cbn.
    - split; eauto.
    - rewrite andb_true_iff, (IH (match joinAttributes_step values (name, a) with
                                   | Ok v => v | Throw _ => values end)).
      destruct a as [[| | [] | n | s | items | entries] | [| m members]]; cbn;
        try (split; [intros [_ H]; exact H | intros H; split; [reflexivity | exact H]]);
        (split; [intros [H _]; discriminate H | intros [? H]; discriminate H]). }
  rewrite (Hloop []). split.
  - intros [values' ->]. cbn. eauto.
  - intros [out Hout]. destruct (for_each joinAttributes_step attributes []); [eauto | discriminate].
Qed.

(** For a plain object (names distinct, not empty and other than class) and
    no list of valid names, the attributes map is the entries of the object,
    in their order. *)
Lemma map_set_fresh name a (attributes : list (string * attribute)) :
  name ∉ attributes.*1 -> map_set name a attributes = attributes ++ [(name, a)].
Proof.
  induction attributes as [| [n old] attributes IH]; cbn; [reflexivity |].
  intros Hfresh. apply not_elem_of_cons in Hfresh as [Hne Hfresh].
  rewrite bool_decide_eq_false_2 by congruence. by rewrite IH.
Qed.

Lemma handleAttributes_plain_object (entries : list (string * value)) :
  NoDup entries.*1 ->
  Forall (fun name => name <> "" /\ name <> "class") entries.*1 ->
  handleAttributes [] [] (VObj entries) = Ok (prod_map id AVal <$> entries).
Proof.
  intros Hdistinct Hnames. cbn.
  change (prod_map id AVal <$> entries) with ([] ++ (prod_map id AVal <$> entries)).
  assert (Hdisjoint : forall name, name ∈ ([] : list (string * attribute)).*1 ->
            name ∉ entries.*1) by (intros name Hin; by apply elem_of_nil in Hin).
  revert Hdisjoint. generalize ([] : list (string * attribute)) as attributes.
  induction entries as [| [key v] entries IH]; intros attributes Hdisjoint; cbn.
  - by rewrite app_nil_r.
  - apply NoDup_cons in Hdistinct as [Hfresh Hdistinct].
    apply Forall_cons in Hnames as [[Hne Hclass] Hnames].
    unfold isValid. rewrite (bool_decide_eq_false_2 _ Hne). cbn.
    rewrite (bool_decide_eq_false_2 _ Hclass).
    rewrite map_set_fresh by (intros Hin; apply (Hdisjoint key Hin); left).
    rewrite IH; [by rewrite <- app_assoc | done | done |].
    intros name Hin. rewrite fmap_app in Hin. apply elem_of_app in Hin as [Hin | Hin].
    + intros Hin'. apply (Hdisjoint name Hin). by right.
    + cbn in Hin. apply list_elem_of_singleton in Hin as ->. exact Hfresh.
Qed.

(** *** More on [escape] *)

Lemma append_cons c (s1 s2 : string) : String c s1 +:+ s2 = String c (s1 +:+ s2).
Proof. reflexivity. Qed.

Lemma append_empty_l (s : string) : EmptyString +:+ s = s.
Proof. reflexivity. Qed.

Lemma prefix_empty (s : string) : String.prefix EmptyString s = true.
Proof. by destruct s. Qed.

Lemma append_assoc (s1 s2 s3 : string) : (s1 +:+ s2) +:+ s3 = s1 +:+ (s2 +:+ s3).
Proof. induction s1 as [| c s1 IH]; [reflexivity |]. rewrite !append_cons. by rewrite IH. Qed.

Lemma length_append (s1 s2 : string) :
  String.length (s1 +:+ s2) = String.length s1 + String.length s2.
Proof. induction s1 as [| c s1 IH]; [reflexivity |]. rewrite append_cons. cbn. by rewrite IH. Qed.

(** The entity of a character, case by case. *)
Lemma escapeChars_cases c :
  (c = "&"%char /\ escapeChars c = Some "&amp;")
  \/ (c = "<"%char /\ escapeChars c = Some "&lt;")
  \/ (c = ">"%char /\ escapeChars c = Some "&gt;")
  \/ (c = "'"%char /\ escapeChars c = Some "&#39;")
  \/ (c = dquote /\ escapeChars c = Some "&#34;")
  \/ (escapeChars c = None /\ ~ special c /\ Ascii.eqb c "&" = false).
Proof.
  destruct c as [[] [] [] [] [] [] [] []];
    first [ left; split; reflexivity
          | right; left; split; reflexivity
          | right; right; left; split; reflexivity
          | right; right; right; left; split; reflexivity
          | right; right; right; right; left; split; reflexivity
          | right; right; right; right; right;
            split; [reflexivity | split; [| reflexivity]];
            unfold special; apply (bool_decide_unpack _); vm_compute; exact I ].
Qed.

(** X1: [escape] works character by character: the escape of a
    concatenation is the concatenation of the escapes. *)
Theorem escape_string_app (s1 s2 : string) :
  escape_string (s1 +:+ s2) = escape_string s1 +:+ escape_string s2.
Proof.
  induction s1 as [| c s1 IH]; [reflexivity |].
  rewrite append_cons. cbn [escape_string]. rewrite IH.
  destruct (escapeChars c) as [entity |]; [by rewrite append_assoc | reflexivity].
Qed.

Lemma unescape_escape (s : string) : unescape (escape_string s) = s.
Proof.
  unfold unescape. induction s as [| c s IH]; [reflexivity |].
  cbn [escape_string].
  destruct (escapeChars_cases c)
    as [[-> ->] | [[-> ->] | [[-> ->] | [[-> ->] | [[-> ->] | (-> & _ & Hamp)]]]]];
    rewrite ?append_cons; cbn [unescape_go]; rewrite ?Hamp; cbn;
    rewrite ?append_empty_l, ?prefix_empty; by rewrite IH.
Qed.

(** X2: [escape] loses nothing: two values have the same escaped text only
    when they are the same value. *)
Theorem escape_string_inj (s1 s2 : string) :
  escape_string s1 = escape_string s2 <-> s1 = s2.
Proof.
  split; [| by intros ->].
  intros Heq. rewrite <- (unescape_escape s1), <- (unescape_escape s2). by rewrite Heq.
Qed.

Lemma escape_string_length (s : string) :
  String.length s <= String.length (escape_string s).
Proof.
  induction s as [| c s IH]; [reflexivity |]. cbn [escape_string].
  destruct (escapeChars_cases c)
    as [[-> ->] | [[-> ->] | [[-> ->] | [[-> ->] | [[-> ->] | (-> & _ & _)]]]]];
    rewrite ?length_append; cbn; lia.
Qed.

(** X3: [escape] returns its argument unchanged exactly when none of the
    five characters occurs in it; it never returns a shorter text. *)
Theorem escape_string_fixed_iff (s : string) :
  (escape_string s = s <-> Forall (fun c => ~ special c) (list_ascii_of_string s))
  /\ String.length s <= String.length (escape_string s).
Proof.
  split; [| apply escape_string_length].
  induction s as [| c s IH]; cbn [escape_string list_ascii_of_string].
  - split; [constructor | reflexivity].
  - rewrite Forall_cons. pose proof (escape_string_length s) as Hlen.
    destruct (escapeChars_cases c)
      as [[-> ->] | [[-> ->] | [[-> ->] | [[-> ->] | [[-> ->] | (-> & Hc & _)]]]]].
    6: { rewrite <- IH. split; [intros [= ->]; done | intros [_ ->]; done]. }
    all: split;
      [ intros Heq; apply (f_equal String.length) in Heq;
        rewrite length_append in Heq; cbn in Heq; lia
      | intros [Hc _]; exfalso; apply Hc; unfold special;
        apply (bool_decide_unpack _); vm_compute; exact I ].
Qed.

(** *** The class names *)

Lemma add_all_app names1 names2 members :
  add_all (names1 ++ names2) members = add_all names2 (add_all names1 members).
Proof. apply fold_left_app. Qed.

Lemma set_add_NoDup name members : NoDup members -> NoDup (set_add name members).
Proof.
  intros Hmembers. unfold set_add. case_bool_decide as Hin; [exact Hmembers |].
  apply NoDup_app. split; [exact Hmembers |]. split; [| apply NoDup_singleton].
  intros x Hx ->%list_elem_of_singleton. contradiction.
Qed.

Lemma elem_of_set_add c name members : c ∈ set_add name members <-> c ∈ members \/ c = name.
Proof.
  unfold set_add. case_bool_decide as Hin.
  - split; [auto | intros [H | ->]; done].
  - rewrite elem_of_app, list_elem_of_singleton. reflexivity.
Qed.

Lemma add_all_NoDup names members : NoDup members -> NoDup (add_all names members).
Proof.
  revert members. induction names as [| name names IH]; intros members Hmembers; [done |].
  apply IH, set_add_NoDup, Hmembers.
Qed.

Lemma elem_of_add_all c names members :
  c ∈ add_all names members <-> c ∈ members \/ c ∈ names.
Proof.
  revert members. induction names as [| name names IH]; intros members; cbn.
  - rewrite elem_of_nil. tauto.
  - rewrite IH, elem_of_set_add, elem_of_cons. tauto.
Qed.

Lemma add_all_present names members :
  Forall (fun name => name ∈ members) names -> add_all names members = members.
Proof.
  induction 1 as [| name names Hin _ IH]; [reflexivity |].
  cbn. unfold set_add. by rewrite bool_decide_eq_true_2.
Qed.

(** [handleClass] on a set adds the selected names, in order, and does not
    throw. *)
Lemma handleClass_set (name : value) :
  forall members,
    handleClass (ClassSet members) name = Ok (ClassSet (add_all (selected name) members)).
Proof.
  induction name as [| | b | n | s | items IH | entries IH] using value_nested_ind;
    intros members; try reflexivity.
  - by destruct b.
  - cbn. by destruct (n =? 0)%Z.
  - cbn. by case_bool_decide.
  - cbn. revert members. induction IH as [| item items Hitem _ IHitems]; intros members.
    + reflexivity.
    + cbn. rewrite Hitem. rewrite add_all_app. apply IHitems.
  - cbn. clear IH. revert members.
    induction entries as [| [key v] entries IHentries]; intros members; [reflexivity |].
    cbn. destruct (truthy v); cbn; apply IHentries.
Qed.

(** On anything else than a set it throws as soon as a name is selected, and
    does nothing when none is. *)
Lemma handleClass_not_a_set (x name : value) :
  handleClass (NotASet x) name
  = match selected name with
    | [] => Ok (NotASet x)
    | _ => Throw "classes.add is not a function"
    end.
Proof.
  induction name as [| | b | n | s | items IH | entries IH] using value_nested_ind;
    try reflexivity.
  - by destruct b.
  - cbn. by destruct (n =? 0)%Z.
  - cbn. by case_bool_decide.
  - cbn. induction IH as [| item items Hitem _ IHitems]; [reflexivity |].
    cbn. rewrite Hitem. destruct (selected item); [exact IHitems | reflexivity].
  - cbn. clear IH. induction entries as [| [key v] entries IHentries]; [reflexivity |].
    cbn. destruct (truthy v); cbn; [reflexivity | exact IHentries].
Qed.

Lemma className_selected (names : list value) :
  className names = Ok (join " " (add_all (concat (List.map selected names)) [])).
Proof.
  unfold className.
  assert (Hloop : forall members,
            for_each handleClass names (ClassSet members)
            = Ok (ClassSet (add_all (concat (List.map selected names)) members))).
  { induction names as [| name names IH]; intros members; [reflexivity |].
    cbn. rewrite handleClass_set, add_all_app. apply IH. }
  rewrite Hloop. reflexivity.
Qed.

(** X4: [className] never throws, and its output is the selected class
    names joined by spaces, each of them once: a name is in the output
    exactly when some argument selects it. *)
Theorem className_each_name_once (names : list value) :
  exists members,
    className names = Ok (join " " members)
    /\ NoDup members
    /\ forall c, c ∈ members <-> exists name, name ∈ names /\ c ∈ selected name.
Proof.
  exists (add_all (concat (List.map selected names)) []).
  split; [apply className_selected |]. split; [apply add_all_NoDup, NoDup_nil_2 |].
  intros c. rewrite elem_of_add_all, elem_of_nil.
  split.
  - intros [[] | Hc]. apply list_elem_of_In, in_concat in Hc as (l & Hl & Hc).
    apply in_map_iff in Hl as (name & <- & Hname).
    exists name. by rewrite !list_elem_of_In.
  - intros (name & Hname & Hc). right. apply list_elem_of_In, in_concat.
    exists (selected name). rewrite <- !list_elem_of_In. split; [| exact Hc].
    apply list_elem_of_In, in_map, list_elem_of_In, Hname.
Qed.

(** X5: arguments given again change nothing: the output for a list of
    arguments followed by arguments already in it is the output for the
    list. *)
Theorem className_repeated (names again : list value) :
  again ⊆ names -> className (names ++ again) = className names.
Proof.
  intros Hagain. rewrite !className_selected. f_equal. f_equal.
  rewrite List.map_app, concat_app, add_all_app. apply add_all_present.
  apply Forall_forall. intros c Hc.
  apply elem_of_add_all. right.
  apply list_elem_of_In, in_concat in Hc as (l & Hl & Hc).
  apply in_map_iff in Hl as (name & <- & Hname).
  apply list_elem_of_In, in_concat. exists (selected name). split; [| exact Hc].
  apply in_map, list_elem_of_In, Hagain, list_elem_of_In, Hname.
Qed.

Lemma className_repeated_witness :
  className ([VStr "a"; VObj [("b", VBool true)]] ++ [VStr "a"])
  = className [VStr "a"; VObj [("b", VBool true)]].
Proof.
  apply (className_repeated [VStr "a"; VObj [("b", VBool true)]] [VStr "a"]).
  intros x Hx. apply list_elem_of_singleton in Hx as ->. left.
Defined.

(** *** The attributes map *)

Lemma map_set_names name a (attributes : list (string * attribute)) :
  (map_set name a attributes).*1
  = if bool_decide (name ∈ attributes.*1) then attributes.*1 else attributes.*1 ++ [name].
Proof.
  induction attributes as [| [n old] attributes IH]; cbn; [reflexivity |].
  destruct (decide (n = name)) as [-> | Hne].
  - rewrite (bool_decide_eq_true_2 (name = name)) by reflexivity.
    rewrite bool_decide_eq_true_2 by left. reflexivity.
  - rewrite (bool_decide_eq_false_2 (n = name)) by exact Hne.
    cbn. rewrite IH. destruct (decide (name ∈ attributes.*1)) as [Hin | Hin].
    + rewrite !bool_decide_eq_true_2; [reflexivity | by right | exact Hin].
    + rewrite !bool_decide_eq_false_2; [reflexivity | | exact Hin].
      intros [-> | Hin']%elem_of_cons; done.
Qed.

(** A map whose names are distinct and valid. *)
Definition well_named (validNames : list string) (attributes : list (string * attribute))
    : Prop :=
  NoDup attributes.*1 /\ Forall (fun name => isValid name validNames = true) attributes.*1.

Lemma map_set_well_named validNames name a attributes :
  isValid name validNames = true ->
  well_named validNames attributes -> well_named validNames (map_set name a attributes).
Proof.
  intros Hvalid [Hdistinct Hnames]. unfold well_named. rewrite map_set_names.
  case_bool_decide as Hin; [done |]. split.
  - apply NoDup_app. split; [done |]. split; [| apply NoDup_singleton].
    intros x Hx ->%list_elem_of_singleton. contradiction.
  - apply Forall_app. split; [done |]. by apply Forall_singleton.
Qed.

Lemma handleAttributes_well_named validNames (values : value) :
  forall attributes attributes',
    well_named validNames attributes ->
    handleAttributes validNames attributes values = Ok attributes' ->
    well_named validNames attributes'.
Proof.
  induction values as [| | b | n | s | items IH | entries IH] using value_nested_ind;
    intros attributes attributes' Hwell; cbn.
  - by intros [= <-].
  - by intros [= <-].
  - destruct b; by intros [= <-].
  - destruct (n =? 0)%Z; by intros [= <-].
  - case_bool_decide; cbn; intros [= <-]; [done |].
    destruct (isValid s validNames) eqn:Hvalid; [by apply map_set_well_named | done].
  - revert attributes Hwell.
    induction IH as [| item items Hitem _ IHitems]; intros attributes Hwell; cbn.
    + by intros [= <-].
    + destruct (handleAttributes validNames attributes item) as [attributes1 |] eqn:Hstep;
        [| discriminate].
      apply IHitems. by apply (Hitem attributes).
  - clear IH. revert attributes Hwell.
    induction entries as [| [key v] entries IHentries]; intros attributes Hwell; cbn.
    + by intros [= <-].
    + destruct (isValid key validNames) eqn:Hvalid; cbn; [| by apply IHentries].
      case_bool_decide as Hclass.
      * subst key. destruct (handleClass (class_list_of attributes) v) as [classList |];
          cbn; [| discriminate].
        apply IHentries. by apply map_set_well_named.
      * apply IHentries. by apply map_set_well_named.
Qed.

(** X6: in the attributes map that [handleAttributes] builds for [attr], no
    name stands twice and every name is valid: not empty, and one of
    [validNames] when that list is not empty. *)
Theorem handleAttributes_names_distinct_valid (values : value) (validNames : list string) :
  match handleAttributes validNames [] values with
  | Ok attributes =>
      NoDup attributes.*1
      /\ Forall (fun name => name <> "" /\ (validNames = [] \/ name ∈ validNames))
           attributes.*1
  | Throw _ => True
  end.
Proof.
  destruct (handleAttributes validNames [] values) as [attributes |] eqn:Hrun; [| exact I].
  destruct (handleAttributes_well_named validNames values [] attributes) as [Hdistinct Hnames];
    [split; constructor | exact Hrun |].
  split; [exact Hdistinct |].
  eapply Forall_impl; [exact Hnames |]. intros name Hvalid. unfold isValid in Hvalid.
  apply andb_true_iff in Hvalid as [Hne Hin].
  apply negb_true_iff, bool_decide_eq_false in Hne.
  apply orb_true_iff in Hin as [Hin | Hin]; apply bool_decide_eq_true in Hin; auto.
Qed.

(** X7: for a plain object (names distinct, not empty and other than class)
    and no list of valid names, [attr] returns exactly when every value is a
    string, a boolean, [null] or [undefined]; a number, an array or an object
    as a value makes it throw. *)
Theorem attr_plain_object_returns_iff (entries : list (string * value)) :
  NoDup entries.*1 ->
  Forall (fun name => name <> "" /\ name <> "class") entries.*1 ->
  (exists out, attr (VObj entries) [] = Ok out)
  <-> Forall (fun entry => prints entry.2 = true) entries.
Proof.
  intros Hdistinct Hnames. unfold attr.
  rewrite (handleAttributes_plain_object entries Hdistinct Hnames). cbn [mbind result_bind].
  rewrite <- joinAttributes_returns, forallb_forall, Forall_forall.
  split.
  - intros Hall [name v] Hin. apply (Hall (name, AVal v)).
    apply list_elem_of_In, list_elem_of_fmap. exists (name, v). done.
  - intros Hall [name a] Hin%list_elem_of_In.
    apply list_elem_of_fmap in Hin as ([name' v] & [= -> ->] & Hin).
    apply (Hall _ Hin).
Qed.

Lemma attr_plain_object_returns_iff_witness :
  (exists out, attr (VObj [("title", VStr "a"); ("tabindex", VNum 0)]) [] = Ok out)
  <-> Forall (fun entry => prints entry.2 = true) [("title", VStr "a"); ("tabindex", VNum 0)].
Proof.
  apply (attr_plain_object_returns_iff [("title", VStr "a"); ("tabindex", VNum 0)]).
  - apply (bool_decide_unpack _). vm_compute. exact I.
  - repeat constructor; discriminate.
Defined.

(** X8: a bare name class followed by an object with a class entry: [attr]
    throws as soon as the entry selects a class name, since the map holds
    [true] under class and not a set; when the entry selects none, the
    output is the bare name. *)
Theorem attr_class_after_bare_class (v : value) :
  attr (VArr [VStr "class"; VObj [("class", v)]]) []
  = match selected v with
    | [] => Ok "class"
    | _ => Throw "classes.add is not a function"
    end.
Proof.
  assert (Hvalid : isValid "class" [] = true) by (vm_compute; reflexivity).
  assert (Hmap : class_list_of [("class", AVal (VBool true))] = NotASet (VBool true))
    by (vm_compute; reflexivity).
  unfold attr. cbn -[handleClass class_list_of isValid].
  rewrite (bool_decide_eq_false_2 ("class" = "")) by discriminate.
  rewrite (bool_decide_eq_true_2 ("class" = "class")) by reflexivity.
  rewrite Hvalid. cbn -[handleClass class_list_of isValid].
  rewrite Hmap, handleClass_not_a_set.
  destruct (selected v); vm_compute; reflexivity.
Qed.

Lemma isValid_any name : name <> "" -> isValid name [] = true.
Proof.
  intros Hname. unfold isValid. rewrite (bool_decide_eq_false_2 _ Hname).
  by rewrite (bool_decide_eq_true_2 ([] = [])).
Qed.

Lemma class_list_of_none : class_list_of [] = ClassSet [].
Proof. reflexivity. Qed.

Lemma class_list_of_classes members :
  class_list_of [("class", AClasses members)] = ClassSet members.
Proof.
  unfold class_list_of, map_get. cbn.
  by rewrite (bool_decide_eq_true_2 ("class" = "class")).
Qed.

(** X19: class entries of several objects are merged, not replaced: the
    output for two objects with a class entry each has one class attribute
    with the names that the two entries select, each once, in the order of
    their first occurrence, and nothing at all when they select none. *)
Theorem attr_merges_classes (a b : value) :
  attr (VArr [VObj [("class", a)]; VObj [("class", b)]]) []
  = match add_all (selected a ++ selected b) [] with
    | [] => Ok ""
    | members => Ok ("class=" +:+ quoted (escape_string (join " " members)))
    end.
Proof.
  unfold attr.
  assert (Hmap : handleAttributes [] [] (VArr [VObj [("class", a)]; VObj [("class", b)]])
                 = Ok [("class", AClasses (add_all (selected a ++ selected b) []))]).
  { cbn -[handleClass class_list_of isValid map_set].
    rewrite (isValid_any "class") by discriminate.
    rewrite (bool_decide_eq_true_2 ("class" = "class")) by reflexivity.
    cbn -[handleClass class_list_of isValid map_set].
    rewrite class_list_of_none, handleClass_set.
    cbn -[handleClass class_list_of isValid].
    rewrite class_list_of_classes, handleClass_set.
    cbn -[handleClass class_list_of isValid].
    rewrite (bool_decide_eq_true_2 ("class" = "class")) by reflexivity.
    by rewrite add_all_app. }
  rewrite Hmap. cbn.
  destruct (add_all (selected a ++ selected b) []); reflexivity.
Qed.

(** X20: an attribute set again keeps its place and takes the new value:
    for two different valid names other than class, an object that sets both
    followed by an object that sets the first again gives the map with the
    first name first, under its later value. *)
Theorem handleAttributes_later_value_in_place (name name' : string) (v v' later : value) :
  name <> "" -> name <> "class" -> name' <> "" -> name' <> "class" -> name <> name' ->
  handleAttributes [] [] (VArr [VObj [(name, v); (name', v')]; VObj [(name, later)]])
  = Ok [(name, AVal later); (name', AVal v')].
Proof.
  intros Hname Hclass Hname' Hclass' Hne.
  cbn -[isValid]. rewrite !(isValid_any name), (isValid_any name') by assumption. cbn.
  rewrite !(bool_decide_eq_false_2 (name = "class")),
    (bool_decide_eq_false_2 (name' = "class")) by assumption.
  cbn. rewrite (bool_decide_eq_false_2 (name = name')) by assumption.
  cbn [map_set]. by rewrite (bool_decide_eq_true_2 (name = name)).
Qed.

Lemma handleAttributes_later_value_in_place_witness :
  handleAttributes [] []
    (VArr [VObj [("id", VStr "a"); ("title", VStr "t")]; VObj [("id", VStr "b")]])
  = Ok [("id", AVal (VStr "b")); ("title", AVal (VStr "t"))].
Proof.
  apply (handleAttributes_later_value_in_place "id" "title" (VStr "a") (VStr "t") (VStr "b"));
    discriminate.
Defined.

(** *** The output of [attr], entry by entry *)

Lemma for_each_app {A B : Type} (body : A -> B -> result A) (l1 l2 : list B) (acc : A) :
  for_each body (l1 ++ l2) acc
  = match for_each body l1 acc with
    | Ok acc' => for_each body l2 acc'
    | Throw e => Throw e
    end.
Proof.
  revert acc. induction l1 as [| x l1 IH]; intros acc; cbn; [reflexivity |].
  destruct (body acc x); [apply IH | reflexivity].
Qed.

(** [handleAttributes] goes through the entries of its input in order. *)
Lemma handleAttributes_items validNames (values : value) :
  forall attributes,
    handleAttributes validNames attributes values
    = for_each (item_step validNames) (items_of values) attributes.
Proof.
  induction values as [| | b | n | s | items IH | entries IH] using value_nested_ind;
    intros attributes; try reflexivity.
  - by destruct b.
  - cbn. by destruct (n =? 0)%Z.
  - cbn. by case_bool_decide.
  - cbn. revert attributes.
    induction IH as [| item items Hitem _ IHitems]; intros attributes; [reflexivity |].
    cbn. rewrite for_each_app, Hitem.
    destruct (for_each (item_step validNames) (items_of item) attributes);
      [apply IHitems | reflexivity].
  - cbn. clear IH. revert attributes.
    induction entries as [| [key v] entries IHentries]; intros attributes; [reflexivity |].
    cbn. destruct (isValid key validNames); cbn; [| apply IHentries].
    case_bool_decide; cbn; [| apply IHentries].
    destruct (handleClass (class_list_of attributes) v); cbn; [apply IHentries | reflexivity].
Qed.

(** The entries under names that are not valid are passed over. *)
#[local] Instance valid_dec validNames it : Decision (valid validNames it).
Proof. unfold valid. apply _. Defined.

Lemma isValid_valid validNames it :
  isValid (item_name it) validNames = true <-> valid validNames it.
Proof.
  unfold isValid, valid.
  rewrite andb_true_iff, negb_true_iff, orb_true_iff, bool_decide_eq_false.
  by rewrite !bool_decide_eq_true.
Qed.

Lemma for_each_valid validNames (items : list item) :
  forall attributes,
    for_each (item_step validNames) items attributes
    = for_each (item_step validNames) (filter (valid validNames) items) attributes.
Proof.
  induction items as [| it items IH]; intros attributes; [reflexivity |].
  destruct (decide (valid validNames it)) as [Hvalid | Hvalid].
  - rewrite filter_cons_True by exact Hvalid. cbn.
    destruct (item_step validNames attributes it); [apply IH | reflexivity].
  - rewrite filter_cons_False by exact Hvalid. cbn.
    rewrite <- isValid_valid in Hvalid. apply not_true_is_false in Hvalid.
    destruct it as [name | key v]; cbn in *; rewrite Hvalid; apply IH.
Qed.

(** One entry under a valid name sets its name in the map: to its value for
    a name other than class and for a bare name, and to what [handleClass]
    makes of the class list for an entry under class. *)
Lemma item_step_value validNames attrs it :
  valid validNames it ->
  (item_name it <> "class" \/ exists name, it = Bare name) ->
  item_step validNames attrs it
  = Ok (map_set (item_name it) (AVal (item_value it)) attrs).
Proof.
  intros Hvalid%isValid_valid Hother.
  destruct it as [name | key v]; cbn in *; rewrite Hvalid; [reflexivity |]. cbn.
  destruct Hother as [Hkey | [name [=]]]. by rewrite bool_decide_eq_false_2.
Qed.

Lemma item_step_class validNames attrs v :
  valid validNames (Entry "class" v) ->
  item_step validNames attrs (Entry "class" v)
  = match class_list_of attrs with
    | ClassSet members =>
        Ok (map_set "class" (AClasses (add_all (selected v) members)) attrs)
    | NotASet x =>
        match selected v with
        | [] => Ok (map_set "class" (AVal x) attrs)
        | _ => Throw "classes.add is not a function"
        end
    end.
Proof.
  intros Hvalid%isValid_valid. cbn in Hvalid |- *. rewrite Hvalid. cbn.
  rewrite (bool_decide_eq_true_2 ("class" = "class")) by reflexivity.
  destruct (class_list_of attrs) as [members | x].
  - by rewrite handleClass_set.
  - rewrite handleClass_not_a_set. by destruct (selected v).
Qed.

Lemma item_cases (it : item) :
  (item_name it <> "class" \/ exists name, it = Bare name) \/ exists v, it = Entry "class" v.
Proof.
  destruct it as [name | key v]; [left; right; eauto |].
  destruct (decide (key = "class")) as [-> | Hkey]; [right; eauto | left; left; exact Hkey].
Qed.

Lemma item_step_sets validNames attrs attrs' it :
  valid validNames it ->
  item_step validNames attrs it = Ok attrs' ->
  exists a, attrs' = map_set (item_name it) a attrs.
Proof.
  intros Hvalid. destruct (item_cases it) as [Hother | [v ->]].
  - rewrite item_step_value by done. intros [= <-]. eauto.
  - rewrite item_step_class by done.
    destruct (class_list_of attrs) as [members | x]; [intros [= <-]; eauto |].
    destruct (selected v); [intros [= <-]; eauto | discriminate].
Qed.

(** Reading the map. *)
Lemma map_get_set_eq name a (attributes : list (string * attribute)) :
  map_get name (map_set name a attributes) = Some a.
Proof.
  unfold map_get. induction attributes as [| [n old] attributes IH]; cbn.
  - by rewrite bool_decide_eq_true_2.
  - destruct (decide (n = name)) as [-> | Hne].
    + rewrite (bool_decide_eq_true_2 (name = name)) by reflexivity. cbn.
      by rewrite bool_decide_eq_true_2.
    + rewrite (bool_decide_eq_false_2 (n = name)) by exact Hne. cbn.
      by rewrite (bool_decide_eq_false_2 (n = name)) by exact Hne.
Qed.

Lemma map_get_set_ne name other a (attributes : list (string * attribute)) :
  name <> other -> map_get name (map_set other a attributes) = map_get name attributes.
Proof.
  intros Hne. unfold map_get. induction attributes as [| [n old] attributes IH]; cbn.
  - by rewrite bool_decide_eq_false_2 by (intros ->; done).
  - destruct (decide (n = other)) as [-> | Hother].
    + rewrite (bool_decide_eq_true_2 (other = other)) by reflexivity. cbn.
      by rewrite (bool_decide_eq_false_2 (other = name)) by (intros ->; done).
    + rewrite (bool_decide_eq_false_2 (n = other)) by exact Hother. cbn.
      destruct (decide (n = name)) as [-> | Hname].
      * by rewrite (bool_decide_eq_true_2 (name = name)).
      * rewrite (bool_decide_eq_false_2 (n = name)) by exact Hname. exact IH.
Qed.

Lemma map_get_elem name a (attributes : list (string * attribute)) :
  map_get name attributes = Some a -> (name, a) ∈ attributes.
Proof.
  unfold map_get. induction attributes as [| [n old] attributes IH]; cbn; [done |].
  case_bool_decide as Hn; cbn in *.
  - intros [= <-]. subst n. left.
  - intros Hget. right. by apply IH.
Qed.

Lemma elem_map_get name a (attributes : list (string * attribute)) :
  NoDup attributes.*1 -> (name, a) ∈ attributes -> map_get name attributes = Some a.
Proof.
  unfold map_get. induction attributes as [| [n old] attributes IH]; cbn.
  - intros _ Hin. by apply elem_of_nil in Hin.
  - intros [Hfresh Hdistinct]%NoDup_cons [[= -> ->] | Hin]%elem_of_cons.
    + by rewrite bool_decide_eq_true_2.
    + rewrite bool_decide_eq_false_2; [by apply IH |].
      cbn. intros ->. apply Hfresh. apply list_elem_of_fmap. by exists (name, a).
Qed.

Lemma elem_of_map_set entry name a (attributes : list (string * attribute)) :
  entry ∈ map_set name a attributes -> entry = (name, a) \/ entry ∈ attributes.
Proof.
  induction attributes as [| [n old] attributes IH]; cbn.
  - intros ->%list_elem_of_singleton. by left.
  - case_bool_decide as Hn.
    + subst n. intros [-> | Hin]%elem_of_cons; [by left | right; by right].
    + intros [-> | Hin]%elem_of_cons; [right; left |].
      destruct (IH Hin) as [-> | Hin']; [by left | right; by right].
Qed.

Lemma class_list_of_get (attributes attributes' : list (string * attribute)) :
  map_get "class" attributes = map_get "class" attributes' ->
  class_list_of attributes = class_list_of attributes'.
Proof. unfold class_list_of. by intros ->. Qed.

(** The names of the map: those of the entries, in the order of their first
    occurrence. *)
Lemma for_each_names validNames (items : list item) :
  forall attributes final,
    Forall (valid validNames) items ->
    for_each (item_step validNames) items attributes = Ok final ->
    final.*1 = add_all (item_name <$> items) attributes.*1.
Proof.
  induction items as [| it items IH]; intros attributes final Hvalid; cbn.
  - by intros [= <-].
  - apply Forall_cons in Hvalid as [Hit Hvalid].
    destruct (item_step validNames attributes it) as [attrs |] eqn:Hstep; [| discriminate].
    intros Hrest. rewrite (IH _ _ Hvalid Hrest).
    destruct (item_step_sets _ _ _ _ Hit Hstep) as [a ->].
    by rewrite map_set_names.
Qed.

(** A name that no entry has keeps what the map held under it. *)
Lemma for_each_frame validNames name (items : list item) :
  forall attributes final,
    Forall (valid validNames) items ->
    name ∉ item_name <$> items ->
    for_each (item_step validNames) items attributes = Ok final ->
    map_get name final = map_get name attributes.
Proof.
  induction items as [| it items IH]; intros attributes final Hvalid Hname; cbn.
  - by intros [= <-].
  - apply Forall_cons in Hvalid as [Hit Hvalid].
    rewrite fmap_cons in Hname. apply not_elem_of_cons in Hname as [Hne Hname].
    destruct (item_step validNames attributes it) as [attrs |] eqn:Hstep; [| discriminate].
    intros Hrest. rewrite (IH _ _ Hvalid Hname Hrest).
    destruct (item_step_sets _ _ _ _ Hit Hstep) as [a ->].
    by apply map_get_set_ne.
Qed.

(** The last entry under a name other than class decides its value. *)
Lemma for_each_last validNames (before after : list item) (it : item) attributes final :
  Forall (valid validNames) (before ++ it :: after) ->
  item_name it <> "class" ->
  item_name it ∉ item_name <$> after ->
  for_each (item_step validNames) (before ++ it :: after) attributes = Ok final ->
  map_get (item_name it) final = Some (AVal (item_value it)).
Proof.
  intros Hvalid Hclass Hlast. rewrite for_each_app.
  apply Forall_app in Hvalid as [_ Hvalid]. apply Forall_cons in Hvalid as [Hit Hvalid].
  destruct (for_each (item_step validNames) before attributes) as [attrs |]; [| discriminate].
  cbn. rewrite item_step_value by auto.
  intros Hrest. rewrite (for_each_frame _ _ _ _ _ Hvalid Hlast Hrest).
  apply map_get_set_eq.
Qed.

(** The name class: once a bare name has set it to [true] it stays so. *)
Lemma for_each_bare_class validNames (items : list item) :
  forall attributes final,
    Forall (valid validNames) items ->
    map_get "class" attributes = Some (AVal (VBool true)) \/ "class" ∈ bare_names items ->
    for_each (item_step validNames) items attributes = Ok final ->
    map_get "class" final = Some (AVal (VBool true)).
Proof.
  induction items as [| it items IH]; intros attributes final Hvalid Hbare; cbn.
  - intros [= <-]. destruct Hbare as [Hget | Hin]; [exact Hget | by apply elem_of_nil in Hin].
  - apply Forall_cons in Hvalid as [Hit Hvalid].
    destruct (item_step validNames attributes it) as [attrs |] eqn:Hstep; [| discriminate].
    apply (IH _ _ Hvalid).
    destruct (item_cases it) as [Hother | [v ->]].
    + rewrite item_step_value in Hstep by done. injection Hstep as <-.
      destruct (decide (item_name it = "class")) as [Hname | Hname].
      * left. rewrite Hname.
        destruct Hother as [Hne | [name ->]]; [done |]. apply map_get_set_eq.
      * rewrite map_get_set_ne by done.
        destruct Hbare as [Hget | Hin]; [by left | right].
        destruct it as [name | key v]; cbn in *; [| exact Hin].
        apply elem_of_cons in Hin as [Heq | Hin]; [by subst name | exact Hin].
    + destruct Hbare as [Hget | Hin]; [| by right]. left.
      rewrite item_step_class in Hstep by done.
      unfold class_list_of in Hstep. rewrite Hget in Hstep. cbn in Hstep.
      destruct (selected v); [| discriminate]. injection Hstep as <-.
      apply map_get_set_eq.
Qed.

(** Without a bare name it holds the names that the entries under class
    have selected so far. *)
Lemma for_each_class_set validNames (items : list item) :
  forall attributes members final a,
    Forall (valid validNames) items ->
    "class" ∉ bare_names items ->
    class_list_of attributes = ClassSet members ->
    (forall a, map_get "class" attributes = Some a -> a = AClasses members) ->
    for_each (item_step validNames) items attributes = Ok final ->
    map_get "class" final = Some a ->
    a = AClasses (add_all (class_names items) members).
Proof.
  induction items as [| it items IH]; intros attributes members final a Hvalid Hbare Hset Hget;
    cbn [for_each].
  - intros [= <-]. apply Hget.
  - apply Forall_cons in Hvalid as [Hit Hvalid].
    destruct (item_step validNames attributes it) as [attrs |] eqn:Hstep; [| discriminate].
    destruct (item_cases it) as [Hother | [v ->]].
    + rewrite item_step_value in Hstep by done. injection Hstep as <-.
      assert (Hname : item_name it <> "class").
      { destruct Hother as [Hne | [name ->]]; [exact Hne |].
        cbn in *. intros ->. apply Hbare. left. }
      assert (Hsame : map_get "class" (map_set (item_name it) (AVal (item_value it)) attributes)
                      = map_get "class" attributes) by (by apply map_get_set_ne).
      assert (Hnames : class_names (it :: items) = class_names items).
      { unfold class_names. cbn. destruct it as [name | key v]; [reflexivity |].
        cbn in Hname. by rewrite bool_decide_eq_false_2. }
      rewrite Hnames. apply (IH _ members); [exact Hvalid | | | ].
      * destruct it; cbn in Hbare; [by apply not_elem_of_cons in Hbare as [_ ?] | exact Hbare].
      * by rewrite (class_list_of_get _ _ Hsame).
      * rewrite Hsame. exact Hget.
    + rewrite item_step_class in Hstep by done. rewrite Hset in Hstep. injection Hstep as <-.
      assert (Hnames : class_names (Entry "class" v :: items)
                       = selected v ++ class_names items).
      { unfold class_names. cbn. by rewrite (bool_decide_eq_true_2 ("class" = "class")). }
      rewrite Hnames, add_all_app.
      apply (IH _ (add_all (selected v) members)); [exact Hvalid | exact Hbare | | ].
      * unfold class_list_of. by rewrite map_get_set_eq.
      * rewrite map_get_set_eq. by intros ? [= <-].
Qed.

(** A value of the map is the value of an entry, and the loop throws on an
    entry under class only. *)
Lemma for_each_origin validNames (items : list item) :
  forall attributes final name v,
    Forall (valid validNames) items ->
    for_each (item_step validNames) items attributes = Ok final ->
    (name, AVal v) ∈ final ->
    (name, AVal v) ∈ attributes
    \/ exists it, it ∈ items /\ item_name it = name /\ item_value it = v.
Proof.
  induction items as [| it items IH]; intros attributes final name v Hvalid; cbn.
  - intros [= <-] Hin. by left.
  - apply Forall_cons in Hvalid as [Hit Hvalid].
    destruct (item_step validNames attributes it) as [attrs |] eqn:Hstep; [| discriminate].
    intros Hrest Hin.
    destruct (IH _ _ _ _ Hvalid Hrest Hin) as [Hattrs | (it' & Hit' & Hname & Hvalue)];
      [| right; exists it'; split; [by right | done]].
    destruct (item_cases it) as [Hother | [v' ->]].
    + rewrite item_step_value in Hstep by done. injection Hstep as <-.
      apply elem_of_map_set in Hattrs as [[= -> ->] | Hattrs]; [| by left].
      right. exists it. split; [left | done].
    + rewrite item_step_class in Hstep by done.
      destruct (class_list_of attributes) as [members | x] eqn:Hlist.
      * injection Hstep as <-.
        apply elem_of_map_set in Hattrs as [[=] | Hattrs]. by left.
      * destruct (selected v'); [| discriminate]. injection Hstep as <-.
        apply elem_of_map_set in Hattrs as [[= -> ->] | Hattrs]; [| by left].
        left. apply map_get_elem. unfold class_list_of in Hlist.
        destruct (map_get "class" attributes) as [[x' | members] |]; [| done | done].
        destruct (truthy x'); [by injection Hlist as -> | done].
Qed.

Lemma for_each_throws validNames (items : list item) :
  forall attributes message,
    Forall (valid validNames) items ->
    for_each (item_step validNames) items attributes = Throw message ->
    exists it, it ∈ items /\ item_name it = "class".
Proof.
  induction items as [| it items IH]; intros attributes message Hvalid; cbn; [discriminate |].
  apply Forall_cons in Hvalid as [Hit Hvalid].
  destruct (item_step validNames attributes it) as [attrs |] eqn:Hstep.
  - intros Hrest. destruct (IH _ _ Hvalid Hrest) as (it' & Hit' & Hname).
    exists it'. split; [by right | exact Hname].
  - intros _. destruct (item_cases it) as [Hother | [v ->]].
    + by rewrite item_step_value in Hstep.
    + exists (Entry "class" v). split; [left | reflexivity].
Qed.

(** The map that [joinAttributes] throws on holds a number, an array or an
    object. *)
Lemma unprintable_entry (attributes : list (string * attribute)) :
  forallb printable attributes = false ->
  exists name v, (name, AVal v) ∈ attributes /\ prints v = false.
Proof.
  induction attributes as [| [name a] attributes IH]; [discriminate |]. cbn.
  intros [Hentry | Hrest]%andb_false_iff.
  - exists name. unfold printable in Hentry. cbn in Hentry.
    destruct a as [v |]; [| discriminate]. exists v. split; [left |].
    by destruct v.
  - destruct (IH Hrest) as (name' & v & Hin & Hv). exists name', v. split; [by right | exact Hv].
Qed.

(** C9, as the claim has it for every entry whose value is [true], fails:
    an entry under class is not an attribute of its own, and an entry under
    a name outside [validNames] is dropped. *)
Lemma attr_true_not_always_bare :
  attr (VObj [("class", VBool true)]) [] = Ok ""
  /\ attr (VObj [("hidden", VBool true)]) ["id"] = Ok "".
Proof. split; reflexivity. Qed.

(** C9 (amended): whenever [attr] returns, its output is what the entries
    of its input under valid names ask for. There is one attribute for each
    of these names, in the order of their first occurrence. For a name
    other than class the last entry under it decides: nothing is emitted for
    the value [undefined], [null] or [false], the bare name for [true] (or
    for the name given as a string), and for a string the name, an equals
    sign and the quoted value, entity-encoded, none of the five characters
    standing raw in it. The entries under class make one attribute of the
    class names that their values select, quoted and encoded in the same
    way and left out when no name is selected; it is the bare name instead
    when class was given as a string. The emitted pieces are joined by
    single spaces. When [attr] throws, there is an entry under class or an
    entry whose value is a number, an array or an object. *)
Theorem attr_output_by_entries (values : value) (validNames : list string) :
  let items := filter (valid validNames) (items_of values) in
  match attr values validNames with
  | Ok out =>
      exists (attributes : list (string * attribute)) (pieces : list (option string)),
        attributes.*1 = add_all (item_name <$> items) []
        /\ (forall before it after,
              items = before ++ it :: after ->
              item_name it <> "class" ->
              item_name it ∉ item_name <$> after ->
              (item_name it, AVal (item_value it)) ∈ attributes)
        /\ (forall a, ("class", a) ∈ attributes ->
              a = if bool_decide ("class" ∈ bare_names items) then AVal (VBool true)
                  else AClasses (add_all (class_names items) []))
        /\ Forall2 emits attributes pieces
        /\ out = join " " (omap id pieces)
  | Throw _ =>
      exists it, it ∈ items /\ (item_name it = "class" \/ prints (item_value it) = false)
  end.
Proof.
  cbn zeta. unfold attr.
  rewrite handleAttributes_items, for_each_valid.
  assert (Hvalid : Forall (valid validNames) (filter (valid validNames) (items_of values)))
    by (apply Forall_forall; intros it Hit; by apply list_elem_of_filter in Hit as [? _]).
  set (items := filter (valid validNames) (items_of values)) in *.
  destruct (for_each (item_step validNames) items []) as [final | message] eqn:Hloop;
    cbn [mbind result_bind].
  - pose proof (for_each_names _ _ _ _ Hvalid Hloop) as Hnames. cbn in Hnames.
    destruct (joinAttributes final) as [out | message] eqn:Hjoin.
    + unfold joinAttributes in Hjoin. cbn in Hjoin.
      destruct (for_each joinAttributes_step final []) as [parts |] eqn:Hparts;
        [| discriminate].
      injection Hjoin as <-.
      destruct (joinAttributes_loop_emits _ _ _ Hparts) as (pieces & Hpieces & ->).
      exists final, pieces. split; [exact Hnames |]. split; [| split; [| done]].
      * intros before it after Hitems Hclass Hlast. apply map_get_elem.
        rewrite Hitems in Hvalid, Hloop. by apply (for_each_last validNames before after it []).
      * intros a Ha. apply elem_map_get in Ha;
          [| rewrite Hnames; apply add_all_NoDup, NoDup_nil_2].
        case_bool_decide as Hbare.
        -- rewrite (for_each_bare_class _ _ _ _ Hvalid (or_intror Hbare) Hloop) in Ha.
           by injection Ha as <-.
        -- by apply (for_each_class_set validNames items [] [] final).
    + destruct (unprintable_entry final) as (name & v & Hin & Hv).
      { apply not_true_is_false. intros [out Hout]%joinAttributes_returns. congruence. }
      destruct (for_each_origin _ _ _ _ _ _ Hvalid Hloop Hin)
        as [Hnil | (it & Hit & _ & <-)]; [by apply elem_of_nil in Hnil |].
      exists it. split; [exact Hit | by right].
  - destruct (for_each_throws _ _ _ _ Hvalid Hloop) as (it & Hit & Hname).
    exists it. split; [exact Hit | by left].
Qed.

End Attributes.

(** ** cli/cms.ts: the worker that serves the CMS *)
Module Cms.

(** What a listener of the site's events hands back: the listener of
    [beforeUpdate] below ends in a bare [return] on one path and runs off its
    end on the other, [undefined] both times; it never returns [false]. *)
Inductive listener_return : Type :=
  | ReturnsUndefined
  | ReturnsBool (b : bool).

(** What the listener does besides: lines of the log and messages posted to
    the process that started the worker. *)
Inductive effect : Type :=
  | LogInfo (line : string)
  | PostMessage (type : string).

Section Build.
(** [_cms] and [_config]: the normalized paths of the CMS configuration file
    and of the site's configuration file. *)
Variables (_cms _config : string).

(** [const mustReload = (files) => files.has(_config) || files.has(_cms)] *)
Definition mustReload (files : gset string) : bool :=
  bool_decide (_config ∈ files) || bool_decide (_cms ∈ files).

(** [site.addEventListener("beforeUpdate", (ev) => { ... })], applied to
    [ev.files]: the value returned and the effects, in order. *)
Definition beforeUpdate (files : gset string) : listener_return * list effect :=
  if mustReload files then
    (ReturnsUndefined, [LogInfo "Reloading the site..."; PostMessage "reload"])
  else (ReturnsUndefined, []).

Lemma mustReload_spec (files : gset string) :
  mustReload files = true <-> _config ∈ files \/ _cms ∈ files.
Proof.
  unfold mustReload. rewrite orb_true_iff, !bool_decide_eq_true. reflexivity.
Qed.

(** C6: the listener posts the reload message exactly when the changed files
    contain the site's configuration file or the CMS configuration file; for
    every other set of changed files it does nothing at all; and in no case
    does it return [false], so the rebuild is never held back by it. *)
Theorem beforeUpdate_reloads_iff_config_changed (files : gset string) :
  (PostMessage "reload" ∈ (beforeUpdate files).2 <-> _config ∈ files \/ _cms ∈ files)
  /\ ((beforeUpdate files).2 = [] <-> ~ (_config ∈ files \/ _cms ∈ files))
  /\ (beforeUpdate files).1 = ReturnsUndefined.
Proof.
  rewrite <- mustReload_spec. unfold beforeUpdate.
  destruct (mustReload files); cbn.
  - split; [| split; [| reflexivity]].
    + split; [reflexivity |]. intros _. apply list_elem_of_further, list_elem_of_here.
    + split; [discriminate | intros H; by destruct H].
  - split; [| split; [| reflexivity]].
    + split; [intros H; by apply elem_of_nil in H | discriminate].
    + split; [intros _; discriminate | reflexivity].
Qed.

End Build.

Example beforeUpdate_config_changed :
  beforeUpdate "/_cms.ts" "/_config.ts" {["/index.md"; "/_config.ts"]}
  = (ReturnsUndefined, [LogInfo "Reloading the site..."; PostMessage "reload"]).
Proof. vm_compute. reflexivity. Qed.

Example beforeUpdate_page_changed :
  beforeUpdate "/_cms.ts" "/_config.ts" {["/index.md"; "/about.md"]} = (ReturnsUndefined, []).
Proof. vm_compute. reflexivity. Qed.

(** X18: a batch of changes asks for the reload exactly when one of its
    parts does: [mustReload] of a union is the disjunction, the empty set
    never asks for it, and the listener does for a union what it does for the
    first part when that part asks for the reload, for the second part
    otherwise. *)
Theorem mustReload_union (_cms _config : string) (changed changed' : gset string) :
  mustReload _cms _config (changed ∪ changed')
  = mustReload _cms _config changed || mustReload _cms _config changed'
  /\ mustReload _cms _config ∅ = false
  /\ beforeUpdate _cms _config (changed ∪ changed')
     = if mustReload _cms _config changed then beforeUpdate _cms _config changed
       else beforeUpdate _cms _config changed'.
Proof.
  assert (Hunion : mustReload _cms _config (changed ∪ changed')
                   = mustReload _cms _config changed || mustReload _cms _config changed').
  { apply eq_true_iff_eq. rewrite orb_true_iff, !mustReload_spec, !elem_of_union. tauto. }
  split; [exact Hunion |]. split.
  - apply not_true_is_false. rewrite mustReload_spec.
    intros [H | H]; by apply not_elem_of_empty in H.
  - unfold beforeUpdate. rewrite Hunion.
    destruct (mustReload _cms _config changed); reflexivity.
Qed.

End Cms.

(** ** core/renderer.ts and core/formats.ts, from the specification and
       from tests/core/renderer.test.ts *)
Module Renderer.
Import Js.

(** Modelled from the spec: the reserved key [templateEngine] of a page's
    data, declared in core/file.ts (4.2, 6): one string (a name, or names
    separated by commas) or a list of names. *)
Inductive TemplateEngine : Type :=
  | Names (text : string)
  | NameList (names : list string).

(** Modelled from the spec: the render context, declared in core/file.ts (3,
    9): the reserved key, read through a typed accessor, and the other keys,
    a mapping from names to values. *)
Record Data : Type := {
  templateEngine : option TemplateEngine;
  fields : gmap string value;
}.

Definition with_templateEngine (te : option TemplateEngine) (data : Data) : Data :=
  {| templateEngine := te; fields := fields data |}.

(** [data[key]]: a key that is not there reads [undefined]. *)
Definition get (key : string) (data : Data) : value :=
  if bool_decide (key = "templateEngine") then
    match templateEngine data with
    | Some (Names text) => VStr text
    | Some (NameList names) => VArr (VStr <$> names)
    | None => VUndefined
    end
  else default VUndefined (fields data !! key).

(** The [Engine] interface, as the engines of the test implement it:
    [render(content, data, filename)] and its synchronous counterpart. Either
    can throw. *)
Module Engine.
Record Engine : Type := {
  render : string -> Data -> string -> result string;
  renderComponent : string -> Data -> string -> result string;
}.
End Engine.
Abbreviation Engine := Engine.Engine.

(** Modelled from the spec: a format descriptor of core/formats.ts (3), with
    the fields the dispatch reads. *)
Record Format : Type := {
  engine : option Engine;
  pageSubExtension : option string;
  isAsset : bool;
}.

(** Modelled from the spec: the registry of core/formats.ts, a table from
    extension to descriptor (4.1: register(format) appends or overwrites a
    descriptor by extension). *)
Definition set_format (extension : string) (format : Format)
    (formats : gmap string Format) : gmap string Format :=
  <[extension := format]> formats.

(** Modelled from the spec: site.loadPages(extensions, {engine}) of
    core/site.ts, which the test calls to register an engine: every
    extension gets a descriptor with the engine. *)
Definition loadPages (extensions : list string) (e : Engine)
    (formats : gmap string Format) : gmap string Format :=
  foldr (fun ext => set_format ext {| engine := Some e; pageSubExtension := None; isAsset := false |})
    formats extensions.

(** [path.endsWith(extension)] *)
Definition endsWith (path extension : string) : bool :=
  let n := String.length path in
  let k := String.length extension in
  bool_decide (k <= n)%nat && String.eqb (substring (n - k) k path) extension.

(** Modelled from the spec: resolve(path) of core/formats.ts (4.1: it
    matches the longest registered extension that ends the path, and yields
    none for an unmatched path). *)
Definition search (path : string) (formats : gmap string Format) : option Format :=
  snd <$>
    foldr
      (fun '(ext, format) best =>
         if endsWith path ext then
           match best with
           | Some (ext', _) =>
               if bool_decide (String.length ext' < String.length ext)%nat
               then Some (ext, format) else best
           | None => Some (ext, format)
           end
         else best)
      None (map_to_list formats).

(** Modelled from the spec: defaultEngineFor(extension(filename)) (4.2, rule
    2): the engine of the descriptor the filename resolves to. *)
Definition defaultEngine (filename : string) (formats : gmap string Format)
    : option Engine :=
  format ← search filename formats; engine format.

(** Modelled from the spec: the engine registered under a name (4.2). The
    test registers its engines by [loadPages([".foo"], ...)] and selects
    them by the name foo: a name stands for the extension made of a dot and
    the name. *)
Definition engineByName (name : string) (formats : gmap string Format)
    : option Engine :=
  format ← formats !! ("." +:+ name); engine format.

(** Modelled from the spec: the names a [templateEngine] value stands for
    (4.2, rule 1): a string is split at its commas and each piece is
    trimmed, so that a single name is the chain of that name; a list of
    names is that sequence. *)
Definition names_of (te : TemplateEngine) : list string :=
  match te with
  | Names text => trim <$> split ","%char text
  | NameList names => names
  end.

(** Modelled from the spec: the resolution of the engine chain by
    Renderer.render of core/renderer.ts (4.2): the first rule that applies
    wins. A step is the engine of a name, or nothing when the name has no
    registered engine. *)
Definition chain (data : Data) (filename : string) (formats : gmap string Format)
    : list (option Engine) :=
  match templateEngine data with
  | Some te => (fun name => engineByName name formats) <$> names_of te
  | None =>
      match defaultEngine filename formats with
      | Some e => [Some e]
      | None => []
      end
  end.

(** Modelled from the spec: the execution of a chain by Renderer.render
    (4.2): from left to right, the output of a step is the content of the
    next, every step gets the original data, a step without engine passes
    the content on, and a failing engine fails the render (7, b). *)
Fixpoint run (steps : list (option Engine)) (content : string) (data : Data)
    (filename : string) : result string :=
  match steps with
  | [] => Ok content
  | None :: rest => run rest content data filename
  | Some e :: rest =>
      match Engine.render e content data filename with
      | Ok output => run rest output data filename
      | Throw message => Throw message
      end
  end.

(** Modelled from the spec: Renderer.render(content, context, filename) of
    core/renderer.ts (4.2), the renderer being its format registry. *)
Definition render (formats : gmap string Format) (content : string) (data : Data)
    (filename : string) : result string :=
  run (chain data filename formats) content data filename.

(** *** The engines of tests/core/renderer.test.ts *)

(** [renderComponent(content, data) { return content + data.foo; }] *)
Definition foo : Engine :=
  let renderComponent := fun content data (_ : string) =>
    Ok (content +:+ to_string (get "foo" data)) in
  {| Engine.render := renderComponent; Engine.renderComponent := renderComponent |}.

(** [renderComponent(content) { return content.toUpperCase(); }] *)
Definition upper : Engine :=
  let renderComponent := fun content (_ : Data) (_ : string) =>
    Ok (toUpperCase content) in
  {| Engine.render := renderComponent; Engine.renderComponent := renderComponent |}.

(** The registry after the two [site.loadPages] of the test. *)
Definition test_formats : gmap string Format :=
  loadPages [".upper"] upper (loadPages [".foo"] foo ∅).

(** [{ foo: "bar" }] and the same with a [templateEngine]. *)
Definition foo_bar (te : option TemplateEngine) : Data :=
  {| templateEngine := te; fields := {["foo" := VStr "bar"]} |}.

(** One step of the fold that the specification describes: the engine of the
    name applied to the content so far, the content itself when the name has
    no engine. *)
Definition step (formats : gmap string Format) (data : Data) (filename : string)
    (content : result string) (name : string) : result string :=
  c ← content;
  match engineByName name formats with
  | Some e => Engine.render e c data filename
  | None => Ok c
  end.

(** *** Names written in a string

    Every character of a string passes a test. *)
Fixpoint all_chars (f : ascii -> bool) (s : string) : bool :=
  match s with
  | EmptyString => true
  | String c rest => f c && all_chars f rest
  end.

(** White space only. *)
Definition blank (s : string) : bool := all_chars Ascii.is_space s.

(** No comma. *)
Definition comma_free (s : string) : bool :=
  all_chars (fun c => negb (Ascii.eqb c ","%char)) s.

(** The first character is white space. *)
Definition starts_blank (s : string) : bool :=
  match s with
  | EmptyString => false
  | String c _ => Ascii.is_space c
  end.

(** A name as it stands in a list of names: no comma in it and no white
    space at its ends. *)
Definition is_name (name : string) : Prop :=
  comma_free name = true
  /\ starts_blank name = false /\ starts_blank (String.rev name) = false.

(** One name of a string of names, as it is written: white space, the name,
    white space. *)
Definition padded (piece : string * string * string) : string :=
  let '(before, name, after) := piece in before +:+ name +:+ after.

Definition well_padded (piece : string * string * string) : Prop :=
  let '(before, name, after) := piece in
  blank before = true /\ is_name name /\ blank after = true.

(** The string of the names, separated by commas, and the names themselves. *)
Definition written (pieces : list (string * string * string)) : string :=
  join "," (padded <$> pieces).

Definition names_in (pieces : list (string * string * string)) : list string :=
  (fun piece => piece.1.2) <$> pieces.

(** An engine whose output does not depend on the [templateEngine] of the
    data it is given. *)
Definition ignores_templateEngine (e : Engine) : Prop :=
  forall content data te filename,
    Engine.render e content (with_templateEngine te data) filename
    = Engine.render e content data filename.

(** *** The dispatch examples of the specification and of the test *)

Example render_foo :
  render test_formats "content" (foo_bar None) "foo.foo" = Ok "contentbar".
Proof. vm_compute. reflexivity. Qed.

Example render_not_found :
  render test_formats "content" (foo_bar None) "foo.not_found" = Ok "content".
Proof. vm_compute. reflexivity. Qed.

Example render_upper :
  render test_formats "content" (foo_bar None) "foo.upper" = Ok "CONTENT".
Proof. vm_compute. reflexivity. Qed.

Example render_templateEngine_name :
  render test_formats "content" (foo_bar (Some (Names "foo"))) "foo.upper"
  = Ok "contentbar".
Proof. vm_compute. reflexivity. Qed.

Example render_templateEngine_list :
  render test_formats "content" (foo_bar (Some (NameList ["foo"; "upper"]))) "foo.not_found"
  = Ok "CONTENTBAR".
Proof. vm_compute. reflexivity. Qed.

Example render_templateEngine_string :
  render test_formats "content" (foo_bar (Some (Names "upper,foo"))) "foo.not_found"
  = Ok "CONTENTbar".
Proof. vm_compute. reflexivity. Qed.

Example names_of_trims : names_of (Names " upper , foo") = ["upper"; "foo"].
Proof. reflexivity. Qed.

Example formats_size :
  size (∅ : gmap string Format) = 0
  /\ size (loadPages [".foo"] foo ∅) = 1
  /\ size test_formats = 2.
Proof. vm_compute. auto. Qed.

(** *** The chain as a fold *)

Lemma fold_step_run formats data filename names (r : result string) :
  fold_left (step formats data filename) names r
  = c ← r; run ((fun name => engineByName name formats) <$> names) c data filename.
Proof.
  revert r. induction names as [| name names IH]; intros r; cbn.
  - by destruct r.
  - rewrite IH. destruct r as [c | message]; cbn; [| reflexivity].
    destruct (engineByName name formats) as [e |]; cbn; [| reflexivity].
    destruct (Engine.render e c data filename); reflexivity.
Qed.

(** C1: with a [templateEngine], [render] is the left fold of the content
    through the engines of its names, in order: the output of a step is the
    content of the next, every step gets the same data, and a name without
    registered engine is an identity step. In the registry of the test, the
    chain foo, upper over the content with {foo: bar} gives CONTENTBAR and
    the chain upper, foo gives CONTENTbar. *)
Theorem render_is_left_fold
    (formats : gmap string Format) (content : string) (data : Data)
    (te : TemplateEngine) (filename : string) :
  let data' := with_templateEngine (Some te) data in
  render formats content data' filename
  = fold_left (step formats data' filename) (names_of te) (Ok content)
  /\ render test_formats "content" (foo_bar (Some (NameList ["foo"; "upper"]))) "foo.not_found"
     = Ok "CONTENTBAR"
  /\ render test_formats "content" (foo_bar (Some (NameList ["upper"; "foo"]))) "foo.not_found"
     = Ok "CONTENTbar".
Proof.
  cbn zeta. split; [| split; vm_compute; reflexivity].
  rewrite fold_step_run. reflexivity.
Qed.

(** C2: without [templateEngine] and with a filename that resolves to no
    default engine, [render] returns the content as it is. *)
Theorem render_passthrough
    (formats : gmap string Format) (content : string) (data : Data) (filename : string) :
  templateEngine data = None ->
  defaultEngine filename formats = None ->
  render formats content data filename = Ok content.
Proof.
  intros Hte Hdefault. unfold render, chain. rewrite Hte, Hdefault. reflexivity.
Qed.

Lemma render_passthrough_witness :
  render test_formats "content" (foo_bar None) "foo.not_found" = Ok "content".
Proof.
  apply (render_passthrough test_formats "content" (foo_bar None) "foo.not_found").
  - reflexivity.
  - vm_compute. reflexivity.
Defined.

(** *** The two forms of [templateEngine] *)

Lemma run_ext steps content data1 data2 filename :
  Forall (fun s => forall e, s = Some e ->
            forall c, Engine.render e c data1 filename = Engine.render e c data2 filename) steps ->
  run steps content data1 filename = run steps content data2 filename.
Proof.
  intros Hsteps. revert content.
  induction Hsteps as [| s steps Hs _ IH]; intros content; cbn; [reflexivity |].
  destruct s as [e |]; [| apply IH].
  rewrite (Hs e eq_refl content).
  destruct (Engine.render e content data2 filename); [apply IH | reflexivity].
Qed.

(** Strings and their reversal. *)
Lemma rev_app_append (s1 s2 : string) : String.rev_app s1 s2 = String.rev s1 +:+ s2.
Proof.
  revert s2. induction s1 as [| c s1 IH]; intros s2; [reflexivity |].
  unfold String.rev. cbn. rewrite (IH (String c s2)), (IH (String c EmptyString)).
  by rewrite Attributes.append_assoc.
Qed.

Lemma rev_cons c (s : string) : String.rev (String c s) = String.rev s +:+ String c EmptyString.
Proof. unfold String.rev at 1. cbn. apply rev_app_append. Qed.

Lemma append_empty_r (s : string) : s +:+ EmptyString = s.
Proof.
  induction s as [| c s IH]; [reflexivity |]. by rewrite Attributes.append_cons, IH.
Qed.

Lemma rev_append (s1 s2 : string) :
  String.rev (s1 +:+ s2) = String.rev s2 +:+ String.rev s1.
Proof.
  induction s1 as [| c s1 IH].
  - by rewrite Attributes.append_empty_l, append_empty_r.
  - by rewrite Attributes.append_cons, !rev_cons, IH, Attributes.append_assoc.
Qed.

Lemma rev_rev (s : string) : String.rev (String.rev s) = s.
Proof.
  induction s as [| c s IH]; [reflexivity |].
  by rewrite rev_cons, rev_append, IH.
Qed.

Lemma all_chars_app f (s1 s2 : string) :
  all_chars f (s1 +:+ s2) = all_chars f s1 && all_chars f s2.
Proof.
  induction s1 as [| c s1 IH]; [by rewrite Attributes.append_empty_l |].
  rewrite Attributes.append_cons. cbn. by rewrite IH, andb_assoc.
Qed.

Lemma all_chars_rev f (s : string) : all_chars f (String.rev s) = all_chars f s.
Proof.
  induction s as [| c s IH]; [reflexivity |].
  rewrite rev_cons, all_chars_app, IH. cbn. by rewrite andb_true_r, andb_comm.
Qed.

Lemma blank_comma_free (s : string) : blank s = true -> comma_free s = true.
Proof.
  unfold blank, comma_free. induction s as [| c s IH]; [reflexivity |]. cbn.
  intros [Hc Hs]%andb_true_iff. rewrite (IH Hs), andb_true_r.
  destruct c as [[] [] [] [] [] [] [] []]; done.
Qed.

(** What [trim] keeps. *)
Lemma trimStart_blank (s rest : string) :
  blank s = true -> trimStart (s +:+ rest) = trimStart rest.
Proof.
  unfold blank. induction s as [| c s IH]; [by rewrite Attributes.append_empty_l |].
  cbn. intros [Hc Hs]%andb_true_iff. rewrite Attributes.append_cons. cbn.
  rewrite Hc. by apply IH.
Qed.

Lemma trimStart_kept (s : string) : starts_blank s = false -> trimStart s = s.
Proof. destruct s as [| c s]; [reflexivity |]. cbn. by intros ->. Qed.

Lemma trim_padded (before name after : string) :
  blank before = true -> blank after = true ->
  starts_blank name = false -> starts_blank (String.rev name) = false ->
  trim (before +:+ name +:+ after) = name.
Proof.
  intros Hbefore Hafter Hstart Hend. unfold trim.
  rewrite (trimStart_blank before _ Hbefore).
  destruct name as [| c name].
  - rewrite Attributes.append_empty_l.
    rewrite <- (append_empty_r after), (trimStart_blank after _ Hafter). reflexivity.
  - assert (Hkept : trimStart (String c name +:+ after) = String c name +:+ after)
      by (rewrite Attributes.append_cons; by apply trimStart_kept).
    rewrite Hkept, rev_append, trimStart_blank by (unfold blank; by rewrite all_chars_rev).
    by rewrite (trimStart_kept _ Hend), rev_rev.
Qed.

(** What [split] gives back. *)
Lemma split_go_piece (piece acc rest : string) :
  comma_free piece = true ->
  split_go ","%char acc (piece +:+ rest) = split_go ","%char (String.rev_app piece acc) rest.
Proof.
  unfold comma_free. revert acc.
  induction piece as [| c piece IH]; intros acc; [by rewrite Attributes.append_empty_l |].
  cbn. intros [Hc Hpiece]%andb_true_iff. rewrite Attributes.append_cons. cbn.
  apply negb_true_iff in Hc. rewrite Hc. by apply IH.
Qed.

Lemma split_join (parts : list string) :
  parts <> [] -> Forall (fun part => comma_free part = true) parts ->
  split ","%char (join "," parts) = parts.
Proof.
  intros Hparts Hfree. unfold split.
  induction Hfree as [| part parts Hpart Hfree IH]; [done |].
  destruct parts as [| next parts].
  - cbn [join]. rewrite <- (append_empty_r part) at 1.
    rewrite split_go_piece by exact Hpart. cbn.
    by rewrite rev_app_append, append_empty_r, rev_rev.
  - change (join "," (part :: next :: parts))
      with (part +:+ "," +:+ join "," (next :: parts)).
    rewrite split_go_piece by exact Hpart.
    rewrite Attributes.append_cons, Attributes.append_empty_l. cbn [split_go].
    rewrite Ascii.eqb_refl, IH by done.
    by rewrite rev_app_append, append_empty_r, rev_rev.
Qed.

Lemma names_of_written (pieces : list (string * string * string)) :
  pieces <> [] -> Forall well_padded pieces ->
  names_of (Names (written pieces)) = names_in pieces.
Proof.
  intros Hpieces Hpadded. unfold names_of, written, names_in.
  rewrite split_join.
  - rewrite <- list_fmap_compose. apply Forall_fmap_ext_1.
    eapply Forall_impl; [exact Hpadded |].
    intros [[before name] after] (Hbefore & (_ & Hstart & Hend) & Hafter). cbn.
    by apply trim_padded.
  - by destruct pieces.
  - apply Forall_fmap. eapply Forall_impl; [exact Hpadded |].
    intros [[before name] after] (Hbefore & (Hfree & _) & Hafter). cbn.
    apply blank_comma_free in Hbefore, Hafter.
    unfold comma_free in *. by rewrite !all_chars_app, Hfree, Hbefore, Hafter.
Qed.

(** The engines of the test read the entries of the data, not its
    [templateEngine]. *)
Lemma test_engines_ignore_templateEngine name e :
  engineByName name test_formats = Some e -> ignores_templateEngine e.
Proof.
  unfold engineByName, test_formats, loadPages, set_format. cbn.
  destruct (decide ("." +:+ name = ".upper")) as [-> | Hupper].
  - rewrite lookup_insert_eq. cbn. intros [= <-]. by intros content data te filename.
  - rewrite lookup_insert_ne by done.
    destruct (decide ("." +:+ name = ".foo")) as [-> | Hfoo].
    + rewrite lookup_insert_eq. cbn. intros [= <-]. by intros content data te filename.
    + rewrite lookup_insert_ne by done. by rewrite lookup_empty.
Qed.



End Renderer.

(** ** core/utils/date.ts, from the specification and from
       tests/core/ (the test of the renderer's dates) *)
Module DateUtil.
Local Open Scope Z_scope.

(** A [Date] is its time value: milliseconds since the epoch, in UTC. *)
Definition Date : Type := Z.

Definition msPerSecond : Z := 1000.
Definition msPerMinute : Z := 60000.
Definition msPerHour : Z := 3600000.
Definition msPerDay : Z := 86400000.

(** The day number of a date of the proleptic Gregorian calendar, counted
    from 1970-01-01, and back. Months count from 1 here. *)
Definition days_from_civil (y m d : Z) : Z :=
  let y := if m <=? 2 then y - 1 else y in
  let era := y / 400 in
  let yoe := y - era * 400 in
  let doy := (153 * (if 2 <? m then m - 3 else m + 9) + 2) / 5 + d - 1 in
  let doe := yoe * 365 + yoe / 4 - yoe / 100 + doy in
  era * 146097 + doe - 719468.

Definition civil_from_days (z : Z) : Z * Z * Z :=
  let z := z + 719468 in
  let era := z / 146097 in
  let doe := z - era * 146097 in
  let yoe := (doe - doe / 1460 + doe / 36524 - doe / 146096) / 365 in
  let doy := doe - (365 * yoe + yoe / 4 - yoe / 100) in
  let mp := (5 * doy + 2) / 153 in
  let d := doy - (153 * mp + 2) / 5 + 1 in
  let m := if mp <? 10 then mp + 3 else mp - 9 in
  (yoe + era * 400 + (if m <=? 2 then 1 else 0), m, d).

(** The fields that a date string spells out, and the zone it names: none
    (local time) or an offset from UTC in minutes, zero for [Z]. *)
Record Fields : Type := {
  year : Z; month : Z; day : Z;
  hours : Z; minutes : Z; seconds : Z;
  offset : option Z;
}.

(** The time value of the fields read as UTC. *)
Definition utc (f : Fields) : Z :=
  days_from_civil (year f) (month f) (day f) * msPerDay
  + hours f * msPerHour + minutes f * msPerMinute + seconds f * msPerSecond.

(** *** Reading the string *)

(** [n] decimal digits at the head of the string: their value and the rest. *)
Fixpoint digits_go (n : nat) (acc : Z) (s : string) : option (Z * string) :=
  match n with
  | O => Some (acc, s)
  | S n =>
      match s with
      | String c rest =>
          d ← Ascii.is_nat c; digits_go n (10 * acc + Z.of_nat d) rest
      | EmptyString => None
      end
  end.
Definition digits (n : nat) (s : string) : option (Z * string) := digits_go n 0 s.

(** One given character at the head of the string: the rest. *)
Definition expect (c : ascii) (s : string) : option string :=
  match s with
  | String c' rest => if Ascii.eqb c c' then Some rest else None
  | EmptyString => None
  end.

(** Modelled from the spec: the rewriting of the compact forms by parseDate
    of core/utils/date.ts (4.3): [YYYYMMDD] and [YYYYMMDDTHHMMSSZ] become
    their punctuated equivalents; any other string is left as it is. *)
Definition punctuate (s : string) : string :=
  let date :=
    '(_, rest) ← digits 8 s;
    Some (substring 0 4 s +:+ "-" +:+ substring 4 2 s +:+ "-" +:+ substring 6 2 s, rest) in
  match date with
  | Some (date, EmptyString) => date
  | Some (date, rest) =>
      let time :=
        rest ← expect "T" rest;
        '(_, rest') ← digits 6 rest;
        rest' ← expect "Z" rest';
        if bool_decide (rest' = EmptyString) then
          Some (substring 0 2 rest +:+ ":" +:+ substring 2 2 rest +:+ ":"
                +:+ substring 4 2 rest)
        else None in
      match time with
      | Some time => date +:+ "T" +:+ time +:+ "Z"
      | None => s
      end
  | None => s
  end.

(** Modelled from the spec: the zone at the end of a full ISO-8601 string
    (4.3), as parseDate of core/utils/date.ts has it read: [Z], or a sign
    and [HH:MM] or [HHMM]. *)
Definition zone (s : string) : option Z :=
  match s with
  | String c rest =>
      if Ascii.eqb c "Z" then (if bool_decide (rest = EmptyString) then Some 0 else None)
      else
        sign ← (if Ascii.eqb c "+" then Some 1
                else if Ascii.eqb c "-" then Some (-1) else None);
        '(h, rest) ← digits 2 rest;
        let rest := default rest (expect ":" rest) in
        '(m, rest) ← digits 2 rest;
        if bool_decide (rest = EmptyString) && (h <? 24) && (m <? 60)
        then Some (sign * (h * 60 + m)) else None
  | EmptyString => None
  end.

(** Modelled from the spec: the forms parseDate of core/utils/date.ts
    accepts once punctuated (4.3): [YYYY-MM-DD] (midnight, local),
    [YYYY-MM-DD HH:MM:SS] (local time) and full ISO-8601 with [Z] or a
    numeric offset. Fields out of their range are refused. *)
Definition fields_of (s : string) : option Fields :=
  '(y, rest) ← digits 4 s;
  rest ← expect "-" rest;
  '(mo, rest) ← digits 2 rest;
  rest ← expect "-" rest;
  '(d, rest) ← digits 2 rest;
  guard (1 <= mo <= 12 /\ 1 <= d <= 31);;
  match rest with
  | EmptyString =>
      Some {| year := y; month := mo; day := d;
              hours := 0; minutes := 0; seconds := 0; offset := None |}
  | String sep rest =>
      '(h, rest) ← digits 2 rest;
      rest ← expect ":" rest;
      '(mi, rest) ← digits 2 rest;
      rest ← expect ":" rest;
      '(sec, rest) ← digits 2 rest;
      guard (h < 24 /\ mi < 60 /\ sec < 60);;
      if Ascii.eqb sep " " then
        if bool_decide (rest = EmptyString) then
          Some {| year := y; month := mo; day := d;
                  hours := h; minutes := mi; seconds := sec; offset := None |}
        else None
      else if Ascii.eqb sep "T" then
        off ← zone rest;
        Some {| year := y; month := mo; day := d;
                hours := h; minutes := mi; seconds := sec; offset := Some off |}
      else None
  end.

Section Local.
(** The zone of the machine: local time is UTC plus [tz] minutes, the same
    all year. *)
Variable tz : Z.

(** Modelled from the spec: the instant that parseDate of
    core/utils/date.ts normalizes the fields to (4.3): local fields are [tz]
    minutes ahead of UTC, fields with an offset that many minutes ahead. *)
Definition instant (f : Fields) : Date :=
  utc f - default tz (offset f) * msPerMinute.

(** Modelled from the spec: parseDate of core/utils/date.ts (4.3): compact
    forms are rewritten into their punctuated equivalent, then the string is
    read as an instant; [None] stands for a string that is none of the forms. *)
Definition parseDate (s : string) : option Date :=
  instant <$> fields_of (punctuate s).

(** The getters of [Date], in local time. *)
Definition local (t : Date) : Z := t + tz * msPerMinute.
Definition getFullYear (t : Date) : Z := (civil_from_days (local t / msPerDay)).1.1.
Definition getMonth (t : Date) : Z := (civil_from_days (local t / msPerDay)).1.2 - 1.
Definition getDate (t : Date) : Z := (civil_from_days (local t / msPerDay)).2.
Definition getHours (t : Date) : Z := (local t mod msPerDay) / msPerHour.
Definition getMinutes (t : Date) : Z := (local t mod msPerHour) / msPerMinute.
Definition getSeconds (t : Date) : Z := (local t mod msPerMinute) / msPerSecond.

(** The six getters at once. *)
Definition wall_clock (t : Date) : list Z :=
  [getFullYear t; getMonth t; getDate t; getHours t; getMinutes t; getSeconds t].

End Local.

(** *** The test of the dates, run in UTC *)

Example calculate_the_date :
  wall_clock 0 <$> parseDate 0 "2020-01-01" = Some [2020; 0; 1; 0; 0; 0].
Proof. vm_compute. reflexivity. Qed.

Example calculate_the_datetime :
  wall_clock 0 <$> parseDate 0 "2021-01-01 03:10:10" = Some [2021; 0; 1; 3; 10; 10].
Proof. vm_compute. reflexivity. Qed.

Example calculate_iso_datetimes :
  wall_clock 0 <$> parseDate 0 "2021-01-01T03:10:10Z" = Some [2021; 0; 1; 3; 10; 10].
Proof. vm_compute. reflexivity. Qed.

Example calculate_iso_datetimes_2 :
  wall_clock 0 <$> parseDate 0 "2021-01-01T03:10:10-0700" = Some [2021; 0; 1; 10; 10; 10].
Proof. vm_compute. reflexivity. Qed.

Example calculate_iso_datetimes_3 :
  wall_clock 0 <$> parseDate 0 "20210101" = Some [2021; 0; 1; 0; 0; 0].
Proof. vm_compute. reflexivity. Qed.

Example calculate_iso_datetimes_4 :
  wall_clock 0 <$> parseDate 0 "20210101T031010Z" = Some [2021; 0; 1; 3; 10; 10].
Proof. vm_compute. reflexivity. Qed.

(** In a zone two hours ahead of UTC, local midnight is two hours earlier
    as an instant, and reads as midnight. *)
Example local_midnight_plus_two :
  parseDate 120 "2020-01-01" = Some 1577829600000
  /\ wall_clock 120 1577829600000 = [2020; 0; 1; 0; 0; 0].
Proof. vm_compute. auto. Qed.

Example not_a_date : parseDate 0 "January 1st" = None.
Proof. vm_compute. reflexivity. Qed.

(** The day number and the calendar date agree over the years 2019 to 2022. *)
Lemma civil_of_first_days :
  forallb (fun n => (days_from_civil (civil_from_days n).1.1 (civil_from_days n).1.2
                       (civil_from_days n).2 =? n))
    (seqZ 17897 1461) = true.
Proof. vm_compute. reflexivity. Qed.

(** The wall clock of local fields is the fields themselves. *)
Lemma wall_clock_local tz f :
  offset f = None ->
  wall_clock tz (instant tz f) = wall_clock 0 (utc f).
Proof.
  intros Hoff. unfold wall_clock, getFullYear, getMonth, getDate, getHours,
    getMinutes, getSeconds, local, instant.
  rewrite Hoff. cbn [default from_option]. rewrite Z.sub_add.
  rewrite Z.mul_0_l, Z.add_0_r. reflexivity.
Qed.

(** C5: for every zone of the machine, [parseDate] reads 2020-01-01 as local
    midnight of January 1st 2020 and 2021-01-01 03:10:10 as that local time;
    the compact forms are rewritten to their punctuated equivalents, so
    20210101 is read as 2021-01-01 and 20210101T031010Z as
    2021-01-01T03:10:10Z, the same instant; and 2021-01-01T03:10:10-0700 is
    the instant seven hours after 2021-01-01T03:10:10Z. *)
Theorem parseDate_forms (tz : Z) :
  (exists t, parseDate tz "2020-01-01" = Some t
             /\ wall_clock tz t = [2020; 0; 1; 0; 0; 0])
  /\ (exists t, parseDate tz "2021-01-01 03:10:10" = Some t
                /\ wall_clock tz t = [2021; 0; 1; 3; 10; 10])
  /\ (exists t, parseDate tz "2021-01-01T03:10:10Z" = Some t
                /\ parseDate tz "20210101T031010Z" = Some t
                /\ parseDate tz "2021-01-01T03:10:10-0700" = Some (t + 7 * msPerHour))
  /\ punctuate "20210101" = "2021-01-01"
  /\ punctuate "20210101T031010Z" = "2021-01-01T03:10:10Z"
  /\ parseDate tz "20210101" = parseDate tz "2021-01-01".
Proof.
  unfold parseDate.
  assert (Hdate : forall s f, fields_of (punctuate s) = Some f -> offset f = None ->
            exists t, instant tz <$> fields_of (punctuate s) = Some t
                      /\ wall_clock tz t = wall_clock 0 (utc f)).
  { intros s f -> Hoff. eexists. split; [reflexivity |]. by apply wall_clock_local. }
  split; [| split; [| split; [| split; [| split]]]].
  - destruct (Hdate "2020-01-01"
                {| year := 2020; month := 1; day := 1;
                   hours := 0; minutes := 0; seconds := 0; offset := None |})
      as (t & Ht & Hclock); [vm_compute; reflexivity | reflexivity |].
    exists t. split; [exact Ht |]. rewrite Hclock. vm_compute. reflexivity.
  - destruct (Hdate "2021-01-01 03:10:10"
                {| year := 2021; month := 1; day := 1;
                   hours := 3; minutes := 10; seconds := 10; offset := None |})
      as (t & Ht & Hclock); [vm_compute; reflexivity | reflexivity |].
    exists t. split; [exact Ht |]. rewrite Hclock. vm_compute. reflexivity.
  - exists 1609470610000. split; [| split]; vm_compute; reflexivity.
  - vm_compute. reflexivity.
  - vm_compute. reflexivity.
  - replace (punctuate "20210101") with "2021-01-01" by (vm_compute; reflexivity).
    replace (punctuate "2021-01-01") with "2021-01-01" by (vm_compute; reflexivity).
    reflexivity.
Qed.

End DateUtil.
